(** * VRM texture optimizer: region rebuilder, classifier and target-size search

    A shallow embedding of [src/vrm_optimizer.py].

    Conventions of the embedding.
    - [bytes] values are lists of [Byte.byte]; the padding byte is [x00].
    - Offsets, lengths and indices of the scene structure are natural
      numbers (the glTF schema gives them a minimum of 0), so a Python slice
      [b[lo:hi]] is [slice b lo hi] with both bounds already non-negative.
    - Qualities, dimensions and the attempt budget are Python integers taken
      from the command line and are modelled in [Z].
    - A Python [dict] is a [gmap], a [set] is a [gset]; a list indexed in
      place is a Rocq list with stdpp's lookup and insert.
    - A function that mutates the scene structure and may raise returns the
      final structure together with either the exception or the value. *)

From Stdlib Require Import ZArith Lia Ascii String.
From Stdlib.Strings Require Import Byte.
From stdpp Require Import base option list sorting gmap strings.

Open Scope nat_scope.

Abbreviation bytes := (list byte).

(** ** Exceptions *)

Inductive exn : Type :=
  | RuntimeError (msg : string)
  | SystemExit (msg : string)
  | IndexError
  | FileNotFoundError.

(** ** The scene structure (the fields of pygltflib's objects that the
    optimizer reads or writes) *)

Record BufferView := mkBufferView {
  buffer : nat;
  byteOffset : option nat;
  byteLength : option nat
}.

Record Buffer := mkBuffer {
  buffer_byteLength : option nat
}.

Record GLTFImage := mkImage {
  name : option string;
  mimeType : option string;
  bufferView : option nat
}.

Record TextureInfo := mkTextureInfo {
  index : option nat
}.

Record Material := mkMaterial {
  normalTexture : option TextureInfo
}.

Record Texture := mkTexture {
  source : option nat
}.

Record GLTF2 := mkGLTF2 {
  bufferViews : list BufferView;
  buffers : list Buffer;
  images : list GLTFImage;
  materials : list Material;
  textures : list Texture
}.

Definition set_bufferViews (g : GLTF2) (bvs : list BufferView) : GLTF2 :=
  {| bufferViews := bvs; buffers := buffers g; images := images g;
     materials := materials g; textures := textures g |}.

Definition set_buffers (g : GLTF2) (bs : list Buffer) : GLTF2 :=
  {| bufferViews := bufferViews g; buffers := bs; images := images g;
     materials := materials g; textures := textures g |}.

Definition set_images (g : GLTF2) (ims : list GLTFImage) : GLTF2 :=
  {| bufferViews := bufferViews g; buffers := buffers g; images := ims;
     materials := materials g; textures := textures g |}.

(** ** Byte helpers *)

(** [b[lo:hi]] for non-negative bounds. *)
Definition slice {A} (b : list A) (lo hi : nat) : list A :=
  take (hi - lo) (drop lo b).

(** [pad4]: [data + b"\x00" * ((4 - (len(data) % 4)) % 4)]. *)
Definition pad4 (data : bytes) : bytes :=
  data ++ replicate ((4 - (length data mod 4)) mod 4) x00.

(** ** [sorted(range(n), key=...)]

    Python's [sorted] is stable; a stable sort has one possible result, which
    is the one insertion from the right computes. *)

Fixpoint insert_by (key : nat → nat) (x : nat) (l : list nat) : list nat :=
  match l with
  | [] => [x]
  | y :: l' => if key x <=? key y then x :: l else y :: insert_by key x l'
  end.

Definition sorted_by (key : nat → nat) (l : list nat) : list nat :=
  foldr (insert_by key) [] l.

(** ** [rebuild_blob_with_replacements] *)

Record rebuild_state := mkRebuildState {
  new_blob : bytes;
  cursor : nat;
  bvs : list BufferView
}.

(** One iteration of [for i in order]. The region table is the live one:
    [bvs[i]] is read from, and written to, the table as mutated so far. *)
Definition rebuild_step (original_blob : bytes) (replacements : gmap nat bytes)
    (st : rebuild_state) (i : nat) : rebuild_state :=
  match bvs st !! i with
  | None => st
  | Some bv =>
    let off := default 0 (byteOffset bv) in
    let ln := default 0 (byteLength bv) in
    let blob1 :=
      if cursor st <? off
      then new_blob st ++ slice original_blob (cursor st) off
      else new_blob st in
    match replacements !! i with
    | Some data =>
      {| new_blob := blob1 ++ pad4 data;
         cursor := off + ln;
         bvs := <[i := {| buffer := buffer bv;
                          byteOffset := Some (length blob1);
                          byteLength := Some (length data) |}]> (bvs st) |}
    | None =>
      let chunk := slice original_blob off (off + ln) in
      {| new_blob := blob1 ++ pad4 chunk;
         cursor := off + ln;
         bvs := <[i := {| buffer := buffer bv;
                          byteOffset := Some (length blob1);
                          byteLength := Some ln |}]> (bvs st) |}
    end
  end.

Definition rebuild_order (table : list BufferView) : list nat :=
  sorted_by (λ i, default 0 (table !! i ≫= byteOffset)) (seq 0 (length table)).

Definition rebuild_loop (original_blob : bytes) (replacements : gmap nat bytes)
    (order : list nat) (st : rebuild_state) : rebuild_state :=
  foldl (rebuild_step original_blob replacements) st order.

(** The payload after the trailing copy [original_blob[cursor:]]. *)
Definition rebuild_finish (original_blob : bytes) (st : rebuild_state) : bytes :=
  if cursor st <? length original_blob
  then new_blob st ++ drop (cursor st) original_blob
  else new_blob st.

Definition set_buffer0_length (bs : list Buffer) (n : nat) : list Buffer :=
  match bs with
  | [] => []
  | _ :: rest => {| buffer_byteLength := Some n |} :: rest
  end.

Definition rebuild_blob_with_replacements (gltf : GLTF2) (original_blob : bytes)
    (replacements : gmap nat bytes) : GLTF2 * (exn + bytes) :=
  match bufferViews gltf with
  | [] => (gltf, inl (RuntimeError "No bufferViews found."))
  | _ =>
    let order := rebuild_order (bufferViews gltf) in
    let st := rebuild_loop original_blob replacements order
                {| new_blob := []; cursor := 0; bvs := bufferViews gltf |} in
    let out := rebuild_finish original_blob st in
    let gltf1 := set_bufferViews gltf (bvs st) in
    match buffers gltf with
    | [] => (gltf1, inl (RuntimeError "No buffers found."))
    | _ => (set_buffers gltf1 (set_buffer0_length (buffers gltf) (length out)),
            inr out)
    end
  end.

(** *** Scenario A of the specification, as data *)

Definition scenarioA_table : list BufferView :=
  [ mkBufferView 0 (Some 0) (Some 10);
    mkBufferView 0 (Some 16) (Some 7);
    mkBufferView 0 (Some 32) (Some 5) ].

Definition scenarioA_gltf : GLTF2 :=
  mkGLTF2 scenarioA_table [mkBuffer (Some 37)] [] [] [].

Definition scenarioA_blob : bytes := replicate 37 x01.

Definition scenarioA_replacements : gmap nat bytes := {[ 1 := [x0a; x0b; x0c] ]}.

(** ** Image classification *)

(** [str.lower()] on the letters that matter for an ASCII needle. *)
Definition ascii_lower (c : ascii) : ascii :=
  let n := nat_of_ascii c in
  if (65 <=? n) && (n <=? 90) then ascii_of_nat (n + 32) else c.

Fixpoint lower (s : string) : string :=
  match s with
  | EmptyString => EmptyString
  | String c s' => String (ascii_lower c) (lower s')
  end.

Fixpoint is_prefix (p s : string) : bool :=
  match p, s with
  | EmptyString, _ => true
  | String a p', String b s' => if Ascii.eqb a b then is_prefix p' s' else false
  | String _ _, EmptyString => false
  end.

(** [needle in hay] for strings. *)
Fixpoint str_contains (needle hay : string) : bool :=
  is_prefix needle hay ||
  match hay with
  | EmptyString => false
  | String _ hay' => str_contains needle hay'
  end.

(** The first loop of [get_normal_texture_image_indices]. *)
Definition add_normal_texture (acc : gset nat) (m : Material) : gset nat :=
  match normalTexture m with
  | Some nt =>
    match index nt with
    | Some i => {[ i ]} ∪ acc
    | None => acc
    end
  | None => acc
  end.

(** The second loop of [get_normal_texture_image_indices]. *)
Definition add_texture_source (texs : list Texture) (acc : gset nat) (t_idx : nat)
    : gset nat :=
  if t_idx <? length texs then
    match texs !! t_idx with
    | Some tex =>
      match source tex with
      | Some s => {[ s ]} ∪ acc
      | None => acc
      end
    | None => acc
    end
  else acc.

Definition get_normal_texture_image_indices (gltf : GLTF2) : gset nat :=
  match materials gltf with
  | [] => ∅
  | _ =>
    let normal_tex_indices := foldl add_normal_texture ∅ (materials gltf) in
    match textures gltf with
    | [] => ∅
    | _ => foldl (add_texture_source (textures gltf)) ∅ (elements normal_tex_indices)
    end
  end.

(** ** Re-encoding settings *)

Record settings := mkSettings {
  max_size : Z;
  webp_quality : Z;
  thumb_max : Z;
  thumb_quality : Z;
  normal_max : Z;
  normal_quality : Z
}.

(** ** External collaborators

    Pillow's decoder and WebP encoder, and the size of the file pygltflib
    writes, are outside the repository. [image_open] is [Image.open] followed
    by [load] ([None] when either raises); [save_webp im limit quality] is the
    aspect-preserving downscale to [limit] followed by the conversion and
    [im.save(format="WEBP", quality=quality, method=6)]; [glb_size] is
    [os.path.getsize] of the file written for a structure and a payload. *)

Class Externals := {
  image : Type;
  image_open : bytes → option image;
  save_webp : image → Z → Z → bytes;
  glb_size : GLTF2 → bytes → Z
}.

(** Calls made to the codec, in order, tagged with the image index. *)
Inductive codec_event : Type :=
  | EvOpen (img_index : nat) (raw : bytes) (ok : bool)
  | EvSave (img_index : nat) (limit quality : Z).

Definition event_index (e : codec_event) : nat :=
  match e with
  | EvOpen i _ _ => i
  | EvSave i _ _ => i
  end.

(** ** The image loop of [optimize_vrm_file] *)

Record encode_state := mkEncodeState {
  replacements : gmap nat bytes;
  imgs : list GLTFImage;
  codec_log : list codec_event
}.

(** The [if is_thumb / elif is_normal / else] of the loop body. *)
Definition select_policy (cfg : settings) (normal_image_indices : gset nat)
    (img_index : nat) (img : GLTFImage) : Z * Z :=
  let nm := lower (default EmptyString (name img)) in
  let is_thumb := str_contains "thumbnail" nm in
  let is_normal := bool_decide (img_index ∈ normal_image_indices) in
  if is_thumb then (thumb_max cfg, thumb_quality cfg)
  else if is_normal then (normal_max cfg, normal_quality cfg)
  else (max_size cfg, webp_quality cfg).

Definition set_mimeType (img : GLTFImage) (m : string) : GLTFImage :=
  {| name := name img; mimeType := Some m; bufferView := bufferView img |}.

(** One iteration of [for img_index, img in enumerate(gltf.images)]. *)
Definition encode_step `{Externals} (cfg : settings) (table : list BufferView)
    (blob : bytes) (normal_image_indices : gset nat)
    (st : encode_state) (img_index : nat) (img : GLTFImage) : exn + encode_state :=
  match bufferView img with
  | None => inr st
  | Some bv_index =>
    match table !! bv_index with
    | None => inl IndexError
    | Some bv =>
      let off := default 0 (byteOffset bv) in
      let ln := default 0 (byteLength bv) in
      let raw := slice blob off (off + ln) in
      match image_open raw with
      | None =>
        inr {| replacements := replacements st;
               imgs := imgs st;
               codec_log := codec_log st ++ [EvOpen img_index raw false] |}
      | Some im =>
        let '(limit, quality) :=
          select_policy cfg normal_image_indices img_index img in
        let new_bytes := save_webp im limit quality in
        inr {| replacements := <[bv_index := new_bytes]> (replacements st);
               imgs := <[img_index := set_mimeType img "image/webp"]> (imgs st);
               codec_log := codec_log st ++
                 [EvOpen img_index raw true; EvSave img_index limit quality] |}
      end
    end
  end.

Fixpoint encode_loop `{Externals} (cfg : settings) (table : list BufferView)
    (blob : bytes) (normal_image_indices : gset nat)
    (todo : list (nat * GLTFImage)) (st : encode_state) : exn + encode_state :=
  match todo with
  | [] => inr st
  | (img_index, img) :: rest =>
    match encode_step cfg table blob normal_image_indices st img_index img with
    | inl e => inl e
    | inr st' => encode_loop cfg table blob normal_image_indices rest st'
    end
  end.

(** [enumerate(l)]. *)
Definition enumerate {A} (l : list A) : list (nat * A) :=
  zip (seq 0 (length l)) l.

(** ** [optimize_vrm_file] *)

(** Lines 107-163: classify, re-encode, rebuild. The structure returned is
    the loaded object after every in-place update; the loop's final state is
    returned with it so that statements can refer to the replacement set and
    to the codec calls. *)
Definition optimize_vrm_structure `{Externals} (cfg : settings) (gltf : GLTF2)
    (blob : bytes) : exn + (GLTF2 * bytes * encode_state) :=
  let normal_image_indices := get_normal_texture_image_indices gltf in
  match images gltf with
  | [] => inl (SystemExit "No images found in the model.")
  | _ =>
    match encode_loop cfg (bufferViews gltf) blob normal_image_indices
            (enumerate (images gltf))
            {| replacements := ∅; imgs := images gltf; codec_log := [] |} with
    | inl e => inl e
    | inr st =>
      match rebuild_blob_with_replacements
              (set_images gltf (imgs st)) blob (replacements st) with
      | (_, inl e) => inl e
      | (gltf', inr new_blob) => inr (gltf', new_blob, st)
      end
    end
  end.

(** A binary container on disk: what [load_binary] gives back for it. *)
Record container := mkContainer {
  structure : GLTF2;
  payload : bytes
}.

(** The file system maps a path to the container stored there.
    [load_binary(input_path)] reads it, [save_binary(output_path)] writes it. *)
Definition optimize_vrm_file `{Externals} (input_path output_path : string)
    (cfg : settings) (fs : gmap string container) : exn + gmap string container :=
  match fs !! input_path with
  | None => inl FileNotFoundError
  | Some c =>
    match optimize_vrm_structure cfg (structure c) (payload c) with
    | inl e => inl e
    | inr (gltf', new_blob, _) =>
      inr (<[output_path := {| structure := gltf'; payload := new_blob |}]> fs)
    end
  end.

(** [os.path.getsize(path)]. *)
Definition getsize `{Externals} (fs : gmap string container) (path : string)
    : exn + Z :=
  match fs !! path with
  | None => inl FileNotFoundError
  | Some c => inr (glb_size (structure c) (payload c))
  end.

(** ** [_candidate_settings_for_target] *)

(** [[x for x in l if not (x in seen or seen.add(x))]]. *)
Fixpoint dedup_first (seen : gset Z) (l : list Z) : list Z :=
  match l with
  | [] => []
  | x :: l' =>
    if decide (x ∈ seen) then dedup_first seen l'
    else x :: dedup_first ({[ x ]} ∪ seen) l'
  end.

Definition size_steps (start_max_size : Z) : list Z :=
  dedup_first ∅
    (filter (λ s, (s ≤ start_max_size)%Z ∧ (128 ≤ s)%Z)
       [start_max_size; 448; 384; 320; 256]%Z).

Definition quality_steps (start_webp_quality : Z) : list Z :=
  dedup_first ∅
    (filter (λ q, (10 ≤ q)%Z ∧ (q ≤ start_webp_quality)%Z)
       [start_webp_quality; Z.min 65 start_webp_quality; 60; 55; 50; 45]%Z).

(** The dictionary yielded for the pair [(s, q)]. *)
Definition candidate (start : settings) (s q : Z) : settings :=
  {| max_size := s;
     webp_quality := q;
     thumb_max := Z.min (thumb_max start) (Z.max 256 s);
     thumb_quality := Z.min (thumb_quality start) (Z.max 30 (q - 10));
     normal_max := Z.min (normal_max start) s;
     normal_quality := Z.min (normal_quality start) (Z.max 40 (q + 5)) |}.

(** The generator's output in the order it is yielded; [start] holds the six
    keyword arguments. *)
Definition _candidate_settings_for_target (start : settings) : list settings :=
  s ← size_steps (max_size start);
  q ← quality_steps (webp_quality start);
  [candidate start s q].

(** ** [optimize_vrm_to_target] *)

(** What the function prints on its way out. *)
Inductive report : Type :=
  | HitTarget (attempts : Z) (out_size : Z)
  | CouldNotReach (attempts : Z) (best_size : Z) (best_cfg : settings)
  | NoReport.

Record search_result := mkSearchResult {
  final_fs : gmap string container;
  attempt_log : list (settings * Z);
  outcome : exn + report
}.

(** The code after the loop. *)
Definition search_finish (attempts : Z) (best : option (Z * settings)) : report :=
  match best with
  | Some (best_size, best_cfg) => CouldNotReach attempts best_size best_cfg
  | None => NoReport
  end.

(** [if best_size is None or out_size < best_size]. *)
Definition update_best (best : option (Z * settings)) (out_size : Z)
    (cfg : settings) : option (Z * settings) :=
  match best with
  | None => Some (out_size, cfg)
  | Some (best_size, _) =>
    if (out_size <? best_size)%Z then Some (out_size, cfg) else best
  end.

(** The [for cfg in ...] loop. [attempt_log] records each completed attempt
    with the size measured for it. [target_bytes] is
    [int(target_mb * 1024 * 1024)], computed by the caller. *)
Fixpoint search_loop `{Externals} (input_path output_path : string)
    (target_bytes max_attempts : Z) (cands : list settings)
    (attempts : Z) (best : option (Z * settings)) (log : list (settings * Z))
    (fs : gmap string container) : search_result :=
  match cands with
  | [] => mkSearchResult fs log (inr (search_finish attempts best))
  | cfg :: rest =>
    let attempts := (attempts + 1)%Z in
    if (max_attempts <? attempts)%Z
    then mkSearchResult fs log (inr (search_finish attempts best))
    else
      match optimize_vrm_file input_path output_path cfg fs with
      | inl e => mkSearchResult fs log (inl e)
      | inr fs' =>
        match getsize fs' output_path with
        | inl e => mkSearchResult fs' log (inl e)
        | inr out_size =>
          let best' := update_best best out_size cfg in
          let log' := log ++ [(cfg, out_size)] in
          if (out_size <=? target_bytes)%Z
          then mkSearchResult fs' log' (inr (HitTarget attempts out_size))
          else search_loop input_path output_path target_bytes max_attempts
                 rest attempts best' log' fs'
        end
      end
  end.

Definition optimize_vrm_to_target `{Externals} (input_path output_path : string)
    (target_bytes : Z) (start : settings) (max_attempts : Z)
    (fs : gmap string container) : search_result :=
  search_loop input_path output_path target_bytes max_attempts
    (_candidate_settings_for_target start) 0 None [] fs.

(** The command-line defaults. *)
Definition default_settings : settings :=
  {| max_size := 512; webp_quality := 60; thumb_max := 512;
     thumb_quality := 45; normal_max := 512; normal_quality := 70 |}.

(** ** [main]

    The body of [main] after [parse_args]. [pathlib] is outside the
    repository: [resolve] is [Path(raw).expanduser().resolve()] and
    [path_suffix], [path_stem] and [with_name] are the attributes and the
    method of those names, all on paths written as strings. A path exists
    when the file system has a container there. *)

Class PathOps := {
  resolve : string → string;
  path_suffix : string → string;
  path_stem : string → string;
  with_name : string → string → string
}.

(** The parsed arguments; [arg_target] is [None] without [--target-mb] and
    the target in bytes with it. *)
Record main_args := mkMainArgs {
  arg_inputs : list string;
  arg_suffix : string;
  arg_inplace : bool;
  arg_target : option Z;
  arg_settings : settings
}.

(** [for raw in args.inputs]: the file system when the loop ends, and the
    exception that ended it or the value [main] returns. *)
Fixpoint main_loop `{Externals} `{PathOps} (args : main_args)
    (inputs : list string) (fs : gmap string container)
    : gmap string container * (exn + Z) :=
  match inputs with
  | [] => (fs, inr 0%Z)
  | raw :: rest =>
    let input_path := resolve raw in
    match fs !! input_path with
    | None => (fs, inl (SystemExit ("Input not found: " +:+ input_path)))
    | Some _ =>
      if negb (String.eqb (lower (path_suffix input_path)) ".vrm")
      then (fs, inl (SystemExit ("Not a .vrm file: " +:+ input_path)))
      else
        let output_path :=
          if arg_inplace args then input_path
          else with_name input_path
                 (path_stem input_path +:+ arg_suffix args
                  +:+ path_suffix input_path) in
        match arg_target args with
        | Some target_bytes =>
          let r := optimize_vrm_to_target input_path output_path target_bytes
                     (arg_settings args) 12 fs in
          match outcome r with
          | inl e => (final_fs r, inl e)
          | inr _ => main_loop args rest (final_fs r)
          end
        | None =>
          match optimize_vrm_file input_path output_path (arg_settings args)
                  fs with
          | inl e => (fs, inl e)
          | inr fs' => main_loop args rest fs'
          end
        end
    end
  end.

Definition main `{Externals} `{PathOps} (args : main_args)
    (fs : gmap string container) : gmap string container * (exn + Z) :=
  main_loop args (arg_inputs args) fs.

(** *** A well-formed two-region container: every original offset and the
    payload length are multiples of 4, with two bytes of alignment padding
    between the regions *)

Definition aligned_table : list BufferView :=
  [ mkBufferView 0 (Some 0) (Some 10);
    mkBufferView 0 (Some 12) (Some 4) ].

Definition aligned_gltf : GLTF2 :=
  mkGLTF2 aligned_table [mkBuffer (Some 16)] [] [] [].

Definition aligned_blob : bytes :=
  replicate 10 x01 ++ [x00; x00] ++ replicate 4 x02.

(** *** Scenario A without a buffer descriptor, and a structure without
    regions *)

Definition scenarioA_no_buffers : GLTF2 :=
  mkGLTF2 scenarioA_table [] [] [] [].

Definition no_regions_gltf : GLTF2 :=
  mkGLTF2 [] [mkBuffer (Some 37)] [] [] [].

(** ** Vocabulary for statements about the rebuilder *)

(** [bv.byteOffset or 0] and [bv.byteLength or 0]. *)
Definition bv_off (bv : BufferView) : nat := default 0 (byteOffset bv).
Definition bv_len (bv : BufferView) : nat := default 0 (byteLength bv).

(** Position [p] of the payload lies in the half-open range of [bv]. *)
Definition in_region (bv : BufferView) (p : nat) : Prop :=
  bv_off bv ≤ p < bv_off bv + bv_len bv.

(** The bytes copied in front of a region when the read cursor is behind it. *)
Definition gap_before (blob : bytes) (c off : nat) : bytes :=
  if c <? off then slice blob c off else [].

(** The unpadded content written for region [i]. *)
Definition region_bytes (blob : bytes) (repl : gmap nat bytes) (i : nat)
    (bv : BufferView) : bytes :=
  match repl !! i with
  | Some data => data
  | None => slice blob (bv_off bv) (bv_off bv + bv_len bv)
  end.

(** The logical length recorded for region [i]. *)
Definition region_len (repl : gmap nat bytes) (i : nat) (bv : BufferView) : nat :=
  match repl !! i with
  | Some data => length data
  | None => bv_len bv
  end.

(** The region table a successful or failed call leaves behind, and the
    value it returns. *)
Definition rebuilt_table (gltf : GLTF2) (blob : bytes) (repl : gmap nat bytes)
    : list BufferView :=
  bufferViews (rebuild_blob_with_replacements gltf blob repl).1.

Definition rebuilt_payload (gltf : GLTF2) (blob : bytes) (repl : gmap nat bytes)
    : exn + bytes :=
  (rebuild_blob_with_replacements gltf blob repl).2.

(** A region table as the glTF format wants it for an untouched payload:
    every region is non-empty, has a length that is a multiple of 4, lies
    within the payload, and no two regions overlap. *)
Definition tiles_payload (table : list BufferView) (blob : bytes) : Prop :=
  (∀ i bv, table !! i = Some bv →
     0 < bv_len bv ∧ bv_len bv mod 4 = 0
     ∧ bv_off bv + bv_len bv ≤ length blob)
  ∧ (∀ i j bvi bvj, i ≠ j → table !! i = Some bvi → table !! j = Some bvj →
       bv_off bvi + bv_len bvi ≤ bv_off bvj
       ∨ bv_off bvj + bv_len bvj ≤ bv_off bvi).

(** A two-region table that tiles a 16-byte payload with a 4-byte gap. *)
Definition tiled_gltf : GLTF2 :=
  mkGLTF2 [ mkBufferView 0 (Some 8) (Some 8); mkBufferView 0 None (Some 4) ]
          [ mkBuffer (Some 16) ] [] [] [].

Definition tiled_blob : bytes :=
  [ x01; x02; x03; x04; x00; x00; x00; x00;
    x11; x12; x13; x14; x15; x16; x17; x18 ].

(** ** Vocabulary for statements about classification

    These follow the specification's wording; they are compared with
    [select_policy] and [get_normal_texture_image_indices] below. *)

Inductive image_class : Type := General | Thumbnail | NormalMap.

(** "The image's declared name, lower-cased, contains the substring
    thumbnail." *)
Definition name_has_thumbnail (img : GLTFImage) : Prop :=
  ∃ pre post,
    lower (default EmptyString (name img)) = pre +:+ "thumbnail" +:+ post.

(** "The image is reachable by following any material's normal-map texture
    reference to its source image index." *)
Definition normal_map_reachable (gltf : GLTF2) (img_index : nat) : Prop :=
  ∃ m nt t tex,
    m ∈ materials gltf ∧ normalTexture m = Some nt ∧ index nt = Some t
    ∧ textures gltf !! t = Some tex ∧ source tex = Some img_index.

(** Each class maps to its own (max-dimension, quality) policy. *)
Definition policy_of (cfg : settings) (c : image_class) : Z * Z :=
  match c with
  | Thumbnail => (thumb_max cfg, thumb_quality cfg)
  | NormalMap => (normal_max cfg, normal_quality cfg)
  | General => (max_size cfg, webp_quality cfg)
  end.

(** The branch the loop body takes, as a label. *)
Definition image_class_of (gltf : GLTF2) (img_index : nat) (img : GLTFImage)
    : image_class :=
  if str_contains "thumbnail" (lower (default EmptyString (name img)))
  then Thumbnail
  else if bool_decide (img_index ∈ get_normal_texture_image_indices gltf)
  then NormalMap
  else General.

(** ** Vocabulary for statements about the image loop *)

(** The bytes the loop reads for a region: [blob[off : off + ln]]. *)
Definition region_raw (blob : bytes) (bv : BufferView) : bytes :=
  slice blob (bv_off bv) (bv_off bv + bv_len bv).

(** The image has a region whose bytes decode: the loop re-encodes it. *)
Definition reencoded `{Externals} (table : list BufferView) (blob : bytes)
    (img : GLTFImage) : Prop :=
  ∃ b bv im, bufferView img = Some b ∧ table !! b = Some bv
             ∧ image_open (region_raw blob bv) = Some im.

(** The state after the [except] branch: only the call to the decoder is
    recorded. *)
Definition after_decode_failure (st : encode_state) (img_index : nat)
    (raw : bytes) : encode_state :=
  {| replacements := replacements st;
     imgs := imgs st;
     codec_log := codec_log st ++ [EvOpen img_index raw false] |}.

(** Every region reference of an image names an entry of the region table,
    and the structure has images and a buffer descriptor: the conditions
    under which no structural exception is raised. *)
Definition structurally_sound (gltf : GLTF2) : Prop :=
  images gltf ≠ [] ∧ buffers gltf ≠ [] ∧ bufferViews gltf ≠ []
  ∧ ∀ img b, img ∈ images gltf → bufferView img = Some b →
      b < length (bufferViews gltf).

Definition encode_start (gltf : GLTF2) : encode_state :=
  {| replacements := ∅; imgs := images gltf; codec_log := [] |}.

(** ** Vocabulary for statements about the search *)

(** [best] is the first smallest entry of the attempts logged so far. *)
Definition best_inv (best : option (Z * settings)) (log : list (settings * Z))
    : Prop :=
  match best with
  | None => log = []
  | Some (best_size, best_cfg) =>
    (best_cfg, best_size) ∈ log ∧ ∀ c s, (c, s) ∈ log → (best_size ≤ s)%Z
  end.

(** What the report says about the attempts made, for the candidate sequence
    [cands]: an exception leaves only missed attempts behind; a hit is the
    last attempt, the first one at or under the target; a miss reports the
    smallest size seen with its settings, after the sequence or the budget
    ran out; nothing is reported only when nothing was tried. *)
Definition search_post (target_bytes max_attempts : Z) (cands : list settings)
    (log : list (settings * Z)) (o : exn + report) : Prop :=
  match o with
  | inl _ => ∀ c s, (c, s) ∈ log → (target_bytes < s)%Z
  | inr (HitTarget k out_size) =>
    ∃ l c, log = l ++ [(c, out_size)]
           ∧ (out_size ≤ target_bytes)%Z
           ∧ (∀ c' s', (c', s') ∈ l → (target_bytes < s')%Z)
           ∧ k = Z.of_nat (length log)
  | inr (CouldNotReach _ best_size best_cfg) =>
    (∀ c s, (c, s) ∈ log → (target_bytes < s)%Z)
    ∧ (best_cfg, best_size) ∈ log
    ∧ (∀ c s, (c, s) ∈ log → (best_size ≤ s)%Z)
    ∧ (map fst log = cands ∨ (max_attempts ≤ Z.of_nat (length log))%Z)
  | inr NoReport =>
    log = [] ∧ (cands = [] ∨ (max_attempts ≤ 0)%Z)
  end.

(** The payload stored at [path] after a call that may have raised. *)
Definition payload_at (r : exn + gmap string container) (path : string)
    : option bytes :=
  match r with
  | inl _ => None
  | inr fs => payload <$> fs !! path
  end.

(** ** Vocabulary for statements about the candidate sequence *)

(** [a] is tried before [b] because it has the larger main resolution or,
    at the same resolution, the larger main quality. *)
Definition tried_before (a b : settings) : Prop :=
  (max_size b < max_size a)%Z
  ∨ (max_size b = max_size a ∧ webp_quality b < webp_quality a)%Z.

(** ** Data for the worked examples *)

(** A toy codec: an encoded image is its own pixel buffer; a first byte
    [xff] marks bytes that do not decode; saving drops the first byte and
    keeps at most [quality / 10] of the rest, so that saving is lossy (saving
    what was saved differs from saving the original). The size of a written
    file is the length of its payload. *)
Definition toy_externals : Externals :=
  {| image := bytes;
     image_open raw := match raw with
                       | xff :: _ => None
                       | _ => Some raw
                       end;
     save_webp im limit quality := take (Z.to_nat (quality / 10)) (drop 1 im);
     glb_size gltf blob := Z.of_nat (length blob) |}.

(** A container with five images: a general one, one whose bytes do not
    decode, one named as a thumbnail that is also the source of a normal-map
    texture, a normal map, and one without a region. *)
Definition demo_gltf : GLTF2 :=
  {| bufferViews := [ mkBufferView 0 (Some 0) (Some 4);
                      mkBufferView 0 (Some 4) (Some 4);
                      mkBufferView 0 (Some 8) (Some 4);
                      mkBufferView 0 (Some 12) (Some 4) ];
     buffers := [ mkBuffer (Some 16) ];
     images := [ mkImage (Some "Body") (Some "image/png") (Some 0);
                 mkImage (Some "Broken") (Some "image/png") (Some 1);
                 mkImage (Some "Face_Thumbnail") (Some "image/png") (Some 2);
                 mkImage (Some "Bump") (Some "image/png") (Some 3);
                 mkImage (Some "External") (Some "image/png") None ];
     materials := [ mkMaterial (Some (mkTextureInfo (Some 0)));
                    mkMaterial (Some (mkTextureInfo (Some 1)));
                    mkMaterial None ];
     textures := [ mkTexture (Some 2); mkTexture (Some 3) ] |}.

Definition demo_blob : bytes :=
  [ x01; x02; x03; x04;  xff; x0a; x0b; x0c;
    x11; x12; x13; x14;  x21; x22; x23; x24 ].

(** A container with a single eight-byte image, stored at a path. *)
Definition single_gltf : GLTF2 :=
  {| bufferViews := [ mkBufferView 0 (Some 0) (Some 8) ];
     buffers := [ mkBuffer (Some 8) ];
     images := [ mkImage (Some "Body") (Some "image/png") (Some 0) ];
     materials := [];
     textures := [] |}.

Definition single_blob : bytes := [ x01; x02; x03; x04; x05; x06; x07; x08 ].

Definition single_fs : gmap string container :=
  {[ "avatar.vrm" := mkContainer single_gltf single_blob ]}.

(** A structure that declares no images. *)
Definition no_images_gltf : GLTF2 :=
  mkGLTF2 scenarioA_table [mkBuffer (Some 37)] [] [] [].

(** Containers on which the pipeline raises after the images were looked
    at: an image that names region 9 of a four-entry table; images without a
    region next to an empty region table; and images and regions without a
    buffer descriptor. *)
Definition dangling_region_gltf : GLTF2 :=
  mkGLTF2 (bufferViews demo_gltf) []
          [ mkImage (Some "Body") (Some "image/png") (Some 0);
            mkImage (Some "Lost") (Some "image/png") (Some 9) ] [] [].

Definition regionless_gltf : GLTF2 :=
  mkGLTF2 [] [] [ mkImage (Some "External") (Some "image/png") None ] [] [].

Definition bufferless_gltf : GLTF2 :=
  mkGLTF2 (bufferViews demo_gltf) [] (images demo_gltf) [] [].

(** Paths for the worked examples: a file name without directories, whose
    suffix is its last four characters. *)
Definition toy_paths : PathOps :=
  {| resolve p := p;
     path_suffix p := String.substring (String.length p - 4) 4 p;
     path_stem p := String.substring 0 (String.length p - 4) p;
     with_name _ new_name := new_name |}.

Definition batch_args : main_args :=
  {| arg_inputs := ["avatar.vrm"; "missing.vrm"; "avatar.vrm"];
     arg_suffix := "_optimized_5mb";
     arg_inplace := false;
     arg_target := None;
     arg_settings := default_settings |}.

(** A container in which two images share region 0: a general image and,
    after it, one named as a thumbnail. *)
Definition shared_region_gltf : GLTF2 :=
  mkGLTF2 [ mkBufferView 0 (Some 0) (Some 8) ] [ mkBuffer (Some 8) ]
          [ mkImage (Some "Body") (Some "image/png") (Some 0);
            mkImage (Some "thumbnail") (Some "image/png") (Some 0) ] [] [].

(** [best] is the earliest entry of the log with the smallest size: every
    entry before it is strictly larger, none after it is smaller. *)
Definition best_first (best : option (Z * settings))
    (log : list (settings * Z)) : Prop :=
  match best with
  | None => log = []
  | Some (best_size, best_cfg) =>
    ∃ l1 l2, log = l1 ++ (best_cfg, best_size) :: l2
      ∧ (∀ c s, (c, s) ∈ l1 → (best_size < s)%Z)
      ∧ (∀ c s, (c, s) ∈ l2 → (best_size ≤ s)%Z)
  end.

(** A codec for which every quality gives the same size. *)
Definition flat_externals : Externals :=
  {| image := bytes;
     image_open raw := Some raw;
     save_webp im limit quality := take 4 im;
     glb_size gltf blob := Z.of_nat (length blob) |}.

(** ** A written file that is read back

    [optimize_vrm_file] above keeps, at the output path, the structure and
    the payload the rebuilder returned. That is all a statement needs while
    the written file is only measured or left in place. When the output path
    is the input path the next attempt loads the file again, and what
    [load_binary] then returns is what pygltflib's [save_binary] stored, which
    is not the payload it was handed: it re-packs the payload from the
    region table. pygltflib is outside the repository, so the round trip
    [load_binary (save_binary ...)] is a parameter of the definitions below,
    which are otherwise those of [optimize_vrm_file] and
    [optimize_vrm_to_target] line by line. *)

Class GLBStore := {
  glb_reload : GLTF2 → bytes → container
}.

Definition optimize_vrm_file_on_disk `{Externals} `{GLBStore}
    (input_path output_path : string) (cfg : settings)
    (fs : gmap string container) : exn + gmap string container :=
  match fs !! input_path with
  | None => inl FileNotFoundError
  | Some c =>
    match optimize_vrm_structure cfg (structure c) (payload c) with
    | inl e => inl e
    | inr (gltf', new_blob, _) =>
      inr (<[output_path := glb_reload gltf' new_blob]> fs)
    end
  end.

Fixpoint search_loop_on_disk `{Externals} `{GLBStore}
    (input_path output_path : string)
    (target_bytes max_attempts : Z) (cands : list settings)
    (attempts : Z) (best : option (Z * settings)) (log : list (settings * Z))
    (fs : gmap string container) : search_result :=
  match cands with
  | [] => mkSearchResult fs log (inr (search_finish attempts best))
  | cfg :: rest =>
    let attempts := (attempts + 1)%Z in
    if (max_attempts <? attempts)%Z
    then mkSearchResult fs log (inr (search_finish attempts best))
    else
      match optimize_vrm_file_on_disk input_path output_path cfg fs with
      | inl e => mkSearchResult fs log (inl e)
      | inr fs' =>
        match getsize fs' output_path with
        | inl e => mkSearchResult fs' log (inl e)
        | inr out_size =>
          let best' := update_best best out_size cfg in
          let log' := log ++ [(cfg, out_size)] in
          if (out_size <=? target_bytes)%Z
          then mkSearchResult fs' log' (inr (HitTarget attempts out_size))
          else search_loop_on_disk input_path output_path target_bytes
                 max_attempts rest attempts best' log' fs'
        end
      end
  end.

Definition optimize_vrm_to_target_on_disk `{Externals} `{GLBStore}
    (input_path output_path : string)
    (target_bytes : Z) (start : settings) (max_attempts : Z)
    (fs : gmap string container) : search_result :=
  search_loop_on_disk input_path output_path target_bytes max_attempts
    (_candidate_settings_for_target start) 0 None [] fs.

(** The store under which [optimize_vrm_file] is the on-disk definition:
    the file holds what it was handed. *)
Definition verbatim_store : GLBStore :=
  {| glb_reload gltf blob := mkContainer gltf blob |}.

(** The re-packing store. Saving walks the region table in index order and
    writes, for each region, the bytes [blob[off : off + len]] followed by
    zero bytes up to a multiple of 4; the region's offset becomes the place
    its bytes were written at, its buffer index 0. Bytes of the payload that
    belong to no region (gaps, a trailer) are not written. The single buffer
    descriptor holds the length of what was written. *)
Fixpoint repack_regions (blob : bytes) (table : list BufferView)
    (written : bytes) : list BufferView * bytes :=
  match table with
  | [] => ([], written)
  | bv :: rest =>
    let data := slice blob (bv_off bv) (bv_off bv + bv_len bv) in
    let '(rest', out) := repack_regions blob rest (written ++ pad4 data) in
    (mkBufferView 0 (Some (length written)) (byteLength bv) :: rest', out)
  end.

Definition repacking_store : GLBStore :=
  {| glb_reload gltf blob :=
       let '(table, out) := repack_regions blob (bufferViews gltf) [] in
       mkContainer
         (set_buffers (set_bufferViews gltf table)
            [mkBuffer (Some (length out))])
         out |}.

(** * Properties *)

(** ** Slices and padding *)

Section slices.
Context {A : Type}.
Implicit Types (b : list A) (lo hi p : nat).

Lemma length_slice b lo hi :
  length (slice b lo hi) = (hi - lo) `min` (length b - lo).
Proof. unfold slice. by rewrite length_take, length_drop. Qed.

Lemma lookup_slice b lo hi p :
  lo ≤ p < hi → slice b lo hi !! (p - lo) = b !! p.
Proof.
  intros [Hlo Hhi]. unfold slice.
  rewrite lookup_take_lt by lia. rewrite lookup_drop. f_equal. lia.
Qed.

Lemma slice_app_end (x gap y : list A) :
  slice (x ++ gap ++ y) (length (x ++ gap) - length gap) (length (x ++ gap)) = gap.
Proof.
  unfold slice. rewrite length_app.
  replace (length x + length gap - length gap) with (length x) by lia.
  rewrite drop_app_length.
  replace (length x + length gap - length x) with (length gap) by lia.
  by rewrite take_app_length.
Qed.

Lemma slice_app_mid (x d y : list A) :
  slice (x ++ d ++ y) (length x) (length x + length d) = d.
Proof.
  unfold slice. rewrite drop_app_length.
  replace (length x + length d - length x) with (length d) by lia.
  by rewrite take_app_length.
Qed.

End slices.

Lemma length_pad4 (data : bytes) :
  length (pad4 data) = length data + (4 - length data mod 4) mod 4.
Proof. unfold pad4. by rewrite length_app, length_replicate. Qed.

Lemma length_pad4_mod (data : bytes) : length (pad4 data) mod 4 = 0.
Proof.
  rewrite length_pad4.
  pose proof (Nat.mod_upper_bound (length data) 4 ltac:(lia)) as Hm.
  pose proof (Nat.div_mod_eq (length data) 4) as Hd.
  destruct (decide (length data mod 4 = 0)) as [E|E].
  - rewrite E. simpl. rewrite Nat.add_0_r. exact E.
  - rewrite (Nat.mod_small (4 - length data mod 4) 4) by lia.
    replace (length data + (4 - length data mod 4))
      with ((length data / 4 + 1) * 4) by lia.
    apply Nat.Div0.mod_mul.
Qed.

(** ** The sort is a stable rearrangement of the indices *)

Lemma insert_by_perm key x l : insert_by key x l ≡ₚ x :: l.
Proof.
  induction l as [|y l IH]; simpl; [done|].
  destruct (key x <=? key y); [done|].
  rewrite IH. apply Permutation_swap.
Qed.

Lemma sorted_by_perm key l : sorted_by key l ≡ₚ l.
Proof.
  induction l as [|x l IH]; simpl; [done|].
  by rewrite insert_by_perm, IH.
Qed.

Lemma rebuild_order_perm table :
  rebuild_order table ≡ₚ seq 0 (length table).
Proof. apply sorted_by_perm. Qed.

Lemma rebuild_order_NoDup table : NoDup (rebuild_order table).
Proof. rewrite rebuild_order_perm. apply NoDup_seq. Qed.

Lemma insert_by_sorted key x l :
  Sorted (λ a b, key a ≤ key b) l → Sorted (λ a b, key a ≤ key b) (insert_by key x l).
Proof.
  induction 1 as [|y l Hs IH Hhd]; simpl.
  - repeat constructor.
  - destruct (Nat.leb_spec (key x) (key y)).
    + constructor; [by constructor|]. by constructor.
    + constructor; [done|].
      destruct Hhd as [|z l' Hyz]; simpl.
      * constructor. lia.
      * destruct (key x <=? key z); constructor; lia.
Qed.

Lemma rebuild_order_sorted table :
  Sorted (λ a b, default 0 (table !! a ≫= byteOffset)
                 ≤ default 0 (table !! b ≫= byteOffset))
         (rebuild_order table).
Proof.
  unfold rebuild_order, sorted_by.
  induction (seq 0 (length table)) as [|x l IH]; simpl; [constructor|].
  by apply insert_by_sorted.
Qed.

(** ** The rebuild loop, step by step *)

Section rebuild_loop_facts.
Variables (blob : bytes) (repl : gmap nat bytes).
Implicit Types (st : rebuild_state) (order : list nat) (i j : nat).

Lemma rebuild_step_eq st i bv :
  bvs st !! i = Some bv →
  rebuild_step blob repl st i =
    let blob1 := new_blob st ++ gap_before blob (cursor st) (bv_off bv) in
    {| new_blob := blob1 ++ pad4 (region_bytes blob repl i bv);
       cursor := bv_off bv + bv_len bv;
       bvs := <[i := mkBufferView (buffer bv) (Some (length blob1))
                        (Some (region_len repl i bv))]> (bvs st) |}.
Proof.
  intros Hi. unfold rebuild_step, gap_before, region_bytes, region_len,
    bv_off, bv_len. rewrite Hi. simpl.
  destruct (cursor st <? default 0 (byteOffset bv));
    destruct (repl !! i); simpl; rewrite ?app_nil_r; done.
Qed.

Lemma rebuild_step_oob st i :
  bvs st !! i = None → rebuild_step blob repl st i = st.
Proof. intros Hi. unfold rebuild_step. by rewrite Hi. Qed.

Lemma rebuild_loop_cons i order st :
  rebuild_loop blob repl (i :: order) st =
  rebuild_loop blob repl order (rebuild_step blob repl st i).
Proof. done. Qed.

Lemma rebuild_loop_app order1 order2 st :
  rebuild_loop blob repl (order1 ++ order2) st =
  rebuild_loop blob repl order2 (rebuild_loop blob repl order1 st).
Proof. apply foldl_app. Qed.

Lemma rebuild_step_prefix st i :
  ∃ y, new_blob (rebuild_step blob repl st i) = new_blob st ++ y.
Proof.
  destruct (bvs st !! i) as [bv|] eqn:Hi.
  - rewrite (rebuild_step_eq _ _ _ Hi). simpl. rewrite <- app_assoc. eauto.
  - rewrite rebuild_step_oob by done. exists []. by rewrite app_nil_r.
Qed.

Lemma rebuild_loop_prefix order st :
  ∃ y, new_blob (rebuild_loop blob repl order st) = new_blob st ++ y.
Proof.
  revert st. induction order as [|i order IH]; intros st.
  - exists []. by rewrite app_nil_r.
  - rewrite rebuild_loop_cons.
    destruct (IH (rebuild_step blob repl st i)) as [y Hy].
    destruct (rebuild_step_prefix st i) as [z Hz].
    exists (z ++ y). rewrite Hy, Hz. by rewrite app_assoc.
Qed.

Lemma rebuild_finish_prefix st :
  ∃ y, rebuild_finish blob st = new_blob st ++ y.
Proof.
  unfold rebuild_finish. destruct (cursor st <? length blob); eauto.
  exists []. by rewrite app_nil_r.
Qed.

Lemma rebuild_output_prefix order st :
  ∃ y, rebuild_finish blob (rebuild_loop blob repl order st) = new_blob st ++ y.
Proof.
  destruct (rebuild_finish_prefix (rebuild_loop blob repl order st)) as [y Hy].
  destruct (rebuild_loop_prefix order st) as [z Hz].
  exists (z ++ y). rewrite Hy, Hz. by rewrite app_assoc.
Qed.

Lemma rebuild_step_bvs_ne st i j :
  i ≠ j → bvs (rebuild_step blob repl st i) !! j = bvs st !! j.
Proof.
  intros Hne. destruct (bvs st !! i) as [bv|] eqn:Hi.
  - rewrite (rebuild_step_eq _ _ _ Hi). simpl. by rewrite list_lookup_insert_ne.
  - by rewrite rebuild_step_oob.
Qed.

Lemma rebuild_loop_bvs_notin order st j :
  j ∉ order → bvs (rebuild_loop blob repl order st) !! j = bvs st !! j.
Proof.
  revert st. induction order as [|i order IH]; intros st Hj; [done|].
  apply not_elem_of_cons in Hj as [Hne Hj].
  rewrite rebuild_loop_cons, IH by done. by apply rebuild_step_bvs_ne.
Qed.

Lemma rebuild_step_bvs_length st i :
  length (bvs (rebuild_step blob repl st i)) = length (bvs st).
Proof.
  destruct (bvs st !! i) as [bv|] eqn:Hi.
  - rewrite (rebuild_step_eq _ _ _ Hi). simpl. by rewrite length_insert.
  - by rewrite rebuild_step_oob.
Qed.

Lemma rebuild_loop_bvs_length order st :
  length (bvs (rebuild_loop blob repl order st)) = length (bvs st).
Proof.
  revert st. induction order as [|i order IH]; intros st; [done|].
  by rewrite rebuild_loop_cons, IH, rebuild_step_bvs_length.
Qed.

End rebuild_loop_facts.

(** ** Every byte outside the replaced regions is copied *)

Lemma length_gap_before (blob : bytes) c off :
  length (gap_before blob c off) =
  if c <? off then (off - c) `min` (length blob - c) else 0.
Proof. unfold gap_before. destruct (c <? off); [apply length_slice|done]. Qed.

Lemma lookup_gap_before (blob : bytes) c off p :
  c ≤ p < off → p < length blob →
  gap_before blob c off !! (p - c) = blob !! p.
Proof.
  intros Hp Hlen. unfold gap_before.
  destruct (Nat.ltb_spec c off); [|lia]. by apply lookup_slice.
Qed.

Section coverage.
Variables (repl : gmap nat bytes) (n p : nat) (tbl : list BufferView).

Lemma rebuild_covers order :
  NoDup order →
  ∀ c, c ≤ p < n →
  (∀ i bv, i ∈ order → tbl !! i = Some bv → is_Some (repl !! i) →
     ¬ in_region bv p) →
  ∃ j, ∀ (blob nb : bytes) (tbl' : list BufferView),
    length blob = n →
    (∀ i, i ∈ order → tbl' !! i = tbl !! i) →
    rebuild_finish blob
      (rebuild_loop blob repl order (mkRebuildState nb c tbl')) !! (length nb + j)
    = blob !! p.
Proof.
  induction order as [|i order IH]; intros Hnd c Hp Hrep.
  - exists (p - c). intros blob nb tbl' Hlen _.
    unfold rebuild_loop, rebuild_finish. simpl.
    destruct (Nat.ltb_spec c (length blob)); [|lia].
    rewrite lookup_app_r by lia. rewrite lookup_drop. f_equal. lia.
  - apply NoDup_cons in Hnd as [Hni Hnd].
    assert (Hrep' : ∀ i' bv, i' ∈ order → tbl !! i' = Some bv →
              is_Some (repl !! i') → ¬ in_region bv p).
    { intros i' bv Hin. apply Hrep. by right. }
    destruct (tbl !! i) as [bv|] eqn:Hi.
    + destruct (decide (bv_off bv + bv_len bv ≤ p)) as [Hge|Hlt].
      * (* the byte lies after this region: it is copied by a later step *)
        assert (Hp2 : bv_off bv + bv_len bv ≤ p < n) by lia.
        pose proof (IH Hnd (bv_off bv + bv_len bv) Hp2 Hrep') as [j Hj].
        exists ((if c <? bv_off bv then (bv_off bv - c) `min` (n - c) else 0)
                + length (pad4 (match repl !! i with
                                | Some data => data
                                | None => replicate
                                    (bv_len bv `min` (n - bv_off bv)) x00
                                end)) + j).
        intros blob nb tbl' Hlen Hagree.
        rewrite rebuild_loop_cons.
        rewrite (rebuild_step_eq _ _ _ _ bv)
          by (simpl; rewrite Hagree; [done|by left]).
        simpl.
        match goal with |- rebuild_finish _ (rebuild_loop _ _ _
            (mkRebuildState ?nb' _ ?t')) !! ?k = _ =>
          specialize (Hj blob nb' t' Hlen);
          replace k with (length nb' + j); [apply Hj|] end.
        { intros i' Hin. rewrite list_lookup_insert_ne by (by intros ->).
          apply Hagree. by right. }
        rewrite !length_app, length_gap_before, Hlen.
        rewrite !length_pad4. unfold region_bytes.
        destruct (repl !! i); [lia|].
        rewrite length_slice, length_replicate, Hlen.
        replace (bv_off bv + bv_len bv - bv_off bv) with (bv_len bv) by lia.
        lia.
      * destruct (decide (p < bv_off bv)) as [Hgap|Hin].
        -- (* the byte lies in the gap in front of this region *)
           exists (p - c). intros blob nb tbl' Hlen Hagree.
           rewrite rebuild_loop_cons.
           rewrite (rebuild_step_eq _ _ _ _ bv)
             by (simpl; rewrite Hagree; [done|by left]).
           simpl.
           match goal with |- rebuild_finish _ (rebuild_loop _ _ ?o ?s) !! _ = _ =>
             destruct (rebuild_output_prefix blob repl o s) as [y ->] end.
           simpl. rewrite <- !app_assoc.
           rewrite lookup_app_r by lia.
           replace (length nb + (p - c) - length nb) with (p - c) by lia.
           rewrite lookup_app_l.
           ++ apply lookup_gap_before; lia.
           ++ rewrite length_gap_before, Hlen.
              destruct (Nat.ltb_spec c (bv_off bv)); lia.
        -- (* the byte lies in this region, which is therefore not replaced *)
           assert (Hnone : repl !! i = None).
           { destruct (repl !! i) eqn:E; [|done]. exfalso.
             apply (Hrep i bv); [by left|done|by rewrite E|].
             unfold in_region. lia. }
           exists ((if c <? bv_off bv then (bv_off bv - c) `min` (n - c) else 0)
                   + (p - bv_off bv)).
           intros blob nb tbl' Hlen Hagree.
           rewrite rebuild_loop_cons.
           rewrite (rebuild_step_eq _ _ _ _ bv)
             by (simpl; rewrite Hagree; [done|by left]).
           simpl.
           match goal with |- rebuild_finish _ (rebuild_loop _ _ ?o ?s) !! _ = _ =>
             destruct (rebuild_output_prefix blob repl o s) as [y ->] end.
           simpl. unfold region_bytes, pad4. rewrite Hnone.
           rewrite <- !app_assoc.
           rewrite lookup_app_r by lia.
           rewrite lookup_app_r by (rewrite length_gap_before, Hlen; lia).
           rewrite length_gap_before, Hlen.
           match goal with |- _ !! ?k = _ =>
             replace k with (p - bv_off bv) by lia end.
           rewrite lookup_app_l.
           ++ apply lookup_slice. lia.
           ++ rewrite length_slice, Hlen. lia.
    + (* an index outside the table leaves the state as it is *)
      pose proof (IH Hnd c Hp Hrep') as [j Hj].
      exists j. intros blob nb tbl' Hlen Hagree.
      rewrite rebuild_loop_cons, rebuild_step_oob
        by (simpl; rewrite Hagree; [done|by left]).
      apply Hj; [done|]. intros i' Hin. apply Hagree. by right.
Qed.

End coverage.

(** ** What a call that gets past both checks returns *)

Definition rebuild_start (gltf : GLTF2) : rebuild_state :=
  {| new_blob := []; cursor := 0; bvs := bufferViews gltf |}.

Lemma rebuild_returns gltf blob repl :
  bufferViews gltf ≠ [] → buffers gltf ≠ [] →
  let st := rebuild_loop blob repl (rebuild_order (bufferViews gltf))
              (rebuild_start gltf) in
  rebuilt_payload gltf blob repl = inr (rebuild_finish blob st)
  ∧ rebuilt_table gltf blob repl = bvs st.
Proof.
  intros Hbv Hbuf. unfold rebuilt_payload, rebuilt_table,
    rebuild_blob_with_replacements, rebuild_start.
  destruct (bufferViews gltf) eqn:E1; [done|].
  destruct (buffers gltf) eqn:E2; [done|]. done.
Qed.

Lemma rebuild_table_any gltf blob repl :
  bufferViews gltf ≠ [] →
  rebuilt_table gltf blob repl =
  bvs (rebuild_loop blob repl (rebuild_order (bufferViews gltf))
         (rebuild_start gltf)).
Proof.
  intros Hbv. unfold rebuilt_table, rebuild_blob_with_replacements,
    rebuild_start.
  destruct (bufferViews gltf) eqn:E1; [done|].
  by destruct (buffers gltf).
Qed.

(** ** The region visited at a given place of the order *)

Section visit.
Variables (blob : bytes) (repl : gmap nat bytes).

(** The state in which region [i] is reached, and what is recorded for it. *)
Lemma rebuild_loop_visit pre i post st bv :
  NoDup (pre ++ i :: post) →
  bvs st !! i = Some bv →
  let st1 := rebuild_loop blob repl pre st in
  let blob1 := new_blob st1 ++ gap_before blob (cursor st1) (bv_off bv) in
  let fin := rebuild_loop blob repl (pre ++ i :: post) st in
  bvs fin !! i = Some (mkBufferView (buffer bv) (Some (length blob1))
                         (Some (region_len repl i bv)))
  ∧ ∃ y, rebuild_finish blob fin
         = blob1 ++ pad4 (region_bytes blob repl i bv) ++ y.
Proof.
  intros Hnd Hi st1 blob1 fin.
  apply NoDup_app in Hnd as (_ & Hpre & Hnd).
  apply NoDup_cons in Hnd as [Hpost _].
  assert (Hi1 : bvs st1 !! i = Some bv).
  { unfold st1. rewrite rebuild_loop_bvs_notin; [done|].
    intros Hin. apply (Hpre i Hin). by left. }
  subst fin. rewrite rebuild_loop_app, rebuild_loop_cons. fold st1.
  rewrite (rebuild_step_eq _ _ _ _ _ Hi1). simpl. fold blob1. split.
  - rewrite rebuild_loop_bvs_notin by done. simpl.
    apply list_lookup_insert_eq. apply (lookup_lt_Some _ _ _ Hi1).
  - match goal with |- ∃ y, rebuild_finish _ (rebuild_loop _ _ ?o ?s) = _ =>
      destruct (rebuild_output_prefix blob repl o s) as [y ->] end.
    simpl. exists y. by rewrite <- app_assoc.
Qed.

Lemma rebuild_loop_cursor_last pre i st bv :
  i ∉ pre → bvs st !! i = Some bv →
  cursor (rebuild_loop blob repl (pre ++ [i]) st) = bv_off bv + bv_len bv.
Proof.
  intros Hpre Hi. rewrite rebuild_loop_app. simpl.
  rewrite (rebuild_step_eq _ _ _ _ bv); [done|].
  by rewrite rebuild_loop_bvs_notin.
Qed.

(** Two regions that follow one another in the order, with a gap between
    them: the gap is written just in front of the second region. *)
Lemma rebuild_loop_gap pre a b post st bva bvb :
  NoDup (pre ++ a :: b :: post) →
  bvs st !! a = Some bva → bvs st !! b = Some bvb →
  bv_off bva + bv_len bva < bv_off bvb →
  let fin := rebuild_loop blob repl (pre ++ a :: b :: post) st in
  let gap := slice blob (bv_off bva + bv_len bva) (bv_off bvb) in
  ∃ o, bvs fin !! b ≫= byteOffset = Some o
       ∧ slice (rebuild_finish blob fin) (o - length gap) o = gap.
Proof.
  intros Hnd Ha Hb Hlt fin gap.
  assert (Hnd' : NoDup ((pre ++ [a]) ++ b :: post)) by by rewrite <- app_assoc.
  assert (Ha' : a ∉ pre).
  { apply NoDup_app in Hnd as (_ & Hpre & _). intros Hin.
    apply (Hpre a Hin). by left. }
  destruct (rebuild_loop_visit (pre ++ [a]) b post st bvb Hnd' Hb)
    as [Htab [y Hout]].
  rewrite <- app_assoc in Htab, Hout. simpl in Htab, Hout. fold fin in Htab, Hout.
  rewrite (rebuild_loop_cursor_last pre a st bva Ha' Ha) in Htab, Hout.
  unfold gap_before in Htab, Hout.
  destruct (Nat.ltb_spec (bv_off bva + bv_len bva) (bv_off bvb)); [|lia].
  fold gap in Htab, Hout.
  eexists. split; [by rewrite Htab|].
  rewrite Hout. rewrite <- app_assoc. apply slice_app_end.
Qed.

End visit.

(** ** C1: bytes outside the replaced regions, and gaps, survive the rebuild *)

(** C1. Let the structure have a region table and a buffer descriptor, so
    that the call returns a payload. (1) For a position [p] of the original
    payload that lies in no replaced region's range [[offset, offset+length)],
    there is an output position [j], the same for every payload of that
    length, at which the returned payload holds the original byte [p].
    (2) For two regions [a], [b] that follow one another in the sorted order
    with [a] ending before [b] starts, the bytes between them stand in the
    output immediately in front of [b]'s new offset, whatever is replaced. *)
Theorem rebuild_preserves_unreplaced_bytes
    (gltf : GLTF2) (repl : gmap nat bytes) (n : nat) :
  bufferViews gltf ≠ [] → buffers gltf ≠ [] →
  (∀ p, p < n →
     (∀ i bv, bufferViews gltf !! i = Some bv → is_Some (repl !! i) →
        ¬ in_region bv p) →
     ∃ j, ∀ blob : bytes, length blob = n →
       ∃ out, rebuilt_payload gltf blob repl = inr out ∧ out !! j = blob !! p)
  ∧
  (∀ (blob : bytes) pre a b post bva bvb,
     length blob = n →
     rebuild_order (bufferViews gltf) = pre ++ a :: b :: post →
     bufferViews gltf !! a = Some bva → bufferViews gltf !! b = Some bvb →
     bv_off bva + bv_len bva < bv_off bvb →
     let gap := slice blob (bv_off bva + bv_len bva) (bv_off bvb) in
     ∃ out o,
       rebuilt_payload gltf blob repl = inr out
       ∧ rebuilt_table gltf blob repl !! b ≫= byteOffset = Some o
       ∧ slice out (o - length gap) o = gap).
Proof.
  intros Hbv Hbuf. split.
  - intros p Hp Hrep.
    destruct (rebuild_covers repl n p (bufferViews gltf)
                (rebuild_order (bufferViews gltf))
                (rebuild_order_NoDup _) 0 ltac:(lia)) as [j Hj].
    { intros i bv _. apply Hrep. }
    exists j. intros blob Hlen.
    destruct (rebuild_returns gltf blob repl Hbv Hbuf) as [-> _].
    eexists. split; [done|].
    apply (Hj blob [] (bufferViews gltf) Hlen). done.
  - intros blob pre a b post bva bvb Hlen Hord Ha Hb Hlt gap.
    destruct (rebuild_returns gltf blob repl Hbv Hbuf) as [-> ->].
    pose proof (rebuild_order_NoDup (bufferViews gltf)) as Hnd.
    rewrite Hord in *.
    destruct (rebuild_loop_gap blob repl pre a b post (rebuild_start gltf)
                bva bvb Hnd Ha Hb Hlt) as (o & Ho & Hs).
    eauto.
Qed.

(** Scenario A: the byte at position 12 (in the gap after region 0) and the
    gap between regions 0 and 1, with region 1 replaced. *)
Lemma rebuild_preserves_unreplaced_bytes_witness :
  (∃ j, ∀ blob : bytes, length blob = 37 →
     ∃ out, rebuilt_payload scenarioA_gltf blob scenarioA_replacements = inr out
            ∧ out !! j = blob !! 12)
  ∧ ∃ out o,
      rebuilt_payload scenarioA_gltf scenarioA_blob scenarioA_replacements
        = inr out
      ∧ rebuilt_table scenarioA_gltf scenarioA_blob scenarioA_replacements
          !! 1 ≫= byteOffset = Some o
      ∧ slice out (o - 6) o = slice scenarioA_blob 10 16.
Proof.
  destruct (rebuild_preserves_unreplaced_bytes scenarioA_gltf
              scenarioA_replacements 37) as [Hbyte Hgap]; [done|done|].
  split.
  - apply Hbyte; [lia|].
    intros i bv Hi [d Hd]. unfold in_region.
    destruct i as [|[|[|i]]]; simpl in Hi; inversion Hi; subst;
      vm_compute in Hd; try discriminate; vm_compute; lia.
  - apply (Hgap scenarioA_blob [] 0 1 [2] (mkBufferView 0 (Some 0) (Some 10))
             (mkBufferView 0 (Some 16) (Some 7)));
      [done|done|done|done|vm_compute; lia].
Defined.

(** ** C2: new offsets and 4-byte alignment *)

(** C2. The rebuilder pads every region it writes to a multiple of 4 and then
    also copies the source's padding as gap bytes, so offsets drift off the
    4-byte grid. On the aligned two-region container with nothing replaced,
    region 1 moves from offset 12 to offset 14, which is not a multiple
    of 4; the payload grows from 16 to 18 bytes. *)
Theorem rebuild_misaligns_aligned_input :
  rebuild_blob_with_replacements aligned_gltf aligned_blob ∅ =
    (mkGLTF2 [ mkBufferView 0 (Some 0) (Some 10);
               mkBufferView 0 (Some 14) (Some 4) ]
             [mkBuffer (Some 18)] [] [] [],
     inr (replicate 10 x01 ++ [x00; x00] ++ [x00; x00] ++ replicate 4 x02))
  ∧ 12 mod 4 = 0 ∧ 14 mod 4 = 2.
Proof. vm_compute. done. Qed.

(** ** C4: Scenario A *)

Lemma rebuild_finish_eq (blob : bytes) st :
  rebuild_finish blob st =
  new_blob st ++ (if cursor st <? length blob then drop (cursor st) blob else []).
Proof.
  unfold rebuild_finish. destruct (cursor st <? length blob); [done|].
  by rewrite app_nil_r.
Qed.

(** C4, as the claim states it, fails: region 2's new offset is 31, while
    region 0's padded end is 12, and 31 is 12 plus none of the gap lengths
    the scenario mentions (6 and 11) nor the true second gap (9). *)
Lemma scenarioA_region2_offset_not_region0_end_plus_gap :
  ∃ o0 o2,
    rebuilt_table scenarioA_gltf scenarioA_blob scenarioA_replacements
      !! 0 ≫= byteOffset = Some o0
    ∧ rebuilt_table scenarioA_gltf scenarioA_blob scenarioA_replacements
      !! 2 ≫= byteOffset = Some o2
    ∧ o0 + length (pad4 (slice scenarioA_blob 0 10)) = 12
    ∧ o2 = 31
    ∧ o2 ≠ o0 + length (pad4 (slice scenarioA_blob 0 10)) + 6
    ∧ o2 ≠ o0 + length (pad4 (slice scenarioA_blob 0 10)) + 11
    ∧ o2 ≠ o0 + length (pad4 (slice scenarioA_blob 0 10)) + 9.
Proof. exists 0, 31. vm_compute. repeat split; (done || lia). Qed.

(** C4, amended. For every payload of at least 37 bytes and every three new
    bytes for region 1: region 1 gets logical length 3 and four stored bytes
    (the new bytes and one zero) at offset 18, which is region 0's padded end
    (12) plus the 6 gap bytes, copied unchanged; region 2's new offset is 31,
    which is region 1's padded end (22) plus the 9 bytes that lay between
    region 1's old end and region 2's old start, copied unchanged. *)
Theorem scenarioA_rebuild (blob : bytes) (d0 d1 d2 : byte) :
  37 ≤ length blob →
  ∃ out,
    rebuilt_payload scenarioA_gltf blob {[ 1 := [d0; d1; d2] ]} = inr out
    ∧ rebuilt_table scenarioA_gltf blob {[ 1 := [d0; d1; d2] ]} =
        [ mkBufferView 0 (Some 0) (Some 10);
          mkBufferView 0 (Some 18) (Some 3);
          mkBufferView 0 (Some 31) (Some 5) ]
    ∧ length (pad4 (slice blob 0 10)) = 12
    ∧ slice out 12 18 = slice blob 10 16
    ∧ slice out 18 22 = [d0; d1; d2; x00]
    ∧ slice out 22 31 = slice blob 23 32.
Proof.
  intros Hlen.
  do 37 (destruct blob as [|? blob]; [simpl in Hlen; lia|]). clear Hlen.
  unfold rebuilt_payload, rebuilt_table, rebuild_blob_with_replacements.
  simpl bufferViews. simpl buffers. unfold scenarioA_table. cbv iota beta.
  rewrite rebuild_finish_eq.
  match goal with |- context [rebuild_loop ?b ?r ?o ?s] =>
    let v := eval vm_compute in (rebuild_loop b r o s) in
    change (rebuild_loop b r o s) with v end.
  cbn [new_blob cursor bvs].
  match goal with |- context [if ?c then ?x else ?y] =>
    generalize (if c then x else y) end.
  intros tail. eexists. split; [reflexivity|].
  repeat split.
Qed.

Lemma scenarioA_rebuild_witness :
  ∃ out,
    rebuilt_payload scenarioA_gltf scenarioA_blob {[ 1 := [x0a; x0b; x0c] ]}
      = inr out
    ∧ rebuilt_table scenarioA_gltf scenarioA_blob {[ 1 := [x0a; x0b; x0c] ]} =
        [ mkBufferView 0 (Some 0) (Some 10);
          mkBufferView 0 (Some 18) (Some 3);
          mkBufferView 0 (Some 31) (Some 5) ]
    ∧ length (pad4 (slice scenarioA_blob 0 10)) = 12
    ∧ slice out 12 18 = slice scenarioA_blob 10 16
    ∧ slice out 18 22 = [x0a; x0b; x0c; x00]
    ∧ slice out 22 31 = slice scenarioA_blob 23 32.
Proof.
  apply (scenarioA_rebuild scenarioA_blob x0a x0b x0c). vm_compute. lia.
Defined.

(** ** What is recorded and written for each region *)

Lemma rebuild_order_elem table i :
  i < length table → i ∈ rebuild_order table.
Proof.
  intros Hi. rewrite rebuild_order_perm. apply elem_of_seq. lia.
Qed.

(** Whether or not the buffer check passes, every entry of the table has
    been rewritten by the time it is reached. *)
Lemma rebuilt_table_entry gltf (blob : bytes) repl i bv :
  bufferViews gltf !! i = Some bv →
  ∃ o, rebuilt_table gltf blob repl !! i
       = Some (mkBufferView (buffer bv) (Some o) (Some (region_len repl i bv))).
Proof.
  intros Hi.
  assert (Hne : bufferViews gltf ≠ []) by (intros E; by rewrite E in Hi).
  rewrite rebuild_table_any by done.
  pose proof (rebuild_order_elem _ _ (lookup_lt_Some _ _ _ Hi)) as Hin.
  apply list_elem_of_split in Hin as (pre & post & Hord).
  pose proof (rebuild_order_NoDup (bufferViews gltf)) as Hnd.
  rewrite Hord in *.
  destruct (rebuild_loop_visit blob repl pre i post (rebuild_start gltf) bv
              Hnd Hi) as [Htab _].
  eauto.
Qed.

(** On a call that returns, the content written for a region stands at the
    region's new offset, followed by its zero padding. *)
Lemma rebuilt_region gltf (blob : bytes) repl i bv :
  bufferViews gltf !! i = Some bv → buffers gltf ≠ [] →
  ∃ o out,
    rebuilt_table gltf blob repl !! i
      = Some (mkBufferView (buffer bv) (Some o) (Some (region_len repl i bv)))
    ∧ rebuilt_payload gltf blob repl = inr out
    ∧ slice out o (o + length (region_bytes blob repl i bv))
      = region_bytes blob repl i bv
    ∧ slice out o (o + length (pad4 (region_bytes blob repl i bv)))
      = pad4 (region_bytes blob repl i bv).
Proof.
  intros Hi Hbuf.
  assert (Hne : bufferViews gltf ≠ []) by (intros E; by rewrite E in Hi).
  destruct (rebuild_returns gltf blob repl Hne Hbuf) as [-> ->].
  pose proof (rebuild_order_elem _ _ (lookup_lt_Some _ _ _ Hi)) as Hin.
  apply list_elem_of_split in Hin as (pre & post & Hord).
  pose proof (rebuild_order_NoDup (bufferViews gltf)) as Hnd.
  rewrite Hord in *.
  destruct (rebuild_loop_visit blob repl pre i post (rebuild_start gltf) bv
              Hnd Hi) as [Htab [y Hout]].
  eexists _, _. split; [exact Htab|]. split; [done|].
  rewrite Hout. set (x := new_blob _ ++ gap_before _ _ _). split.
  - unfold pad4. rewrite <- (app_assoc _ _ y). apply slice_app_mid.
  - apply slice_app_mid.
Qed.

(** ** C9: the two structural checks *)

(** C9. With an empty region table the call raises before touching the
    structure. With regions but no buffer descriptor it raises only after the
    loop: the structure it leaves has every region's offset and length
    rewritten, to the same table a call with a buffer descriptor produces. *)
Theorem rebuild_checks_not_atomic
    (gltf : GLTF2) (blob : bytes) (repl : gmap nat bytes) :
  (bufferViews gltf = [] →
     rebuild_blob_with_replacements gltf blob repl
     = (gltf, inl (RuntimeError "No bufferViews found.")))
  ∧
  (bufferViews gltf ≠ [] → buffers gltf = [] →
     ∃ table,
       rebuild_blob_with_replacements gltf blob repl
       = (set_bufferViews gltf table, inl (RuntimeError "No buffers found."))
       ∧ (∀ i bv, bufferViews gltf !! i = Some bv →
            ∃ o, table !! i = Some (mkBufferView (buffer bv) (Some o)
                                      (Some (region_len repl i bv))))
       ∧ (∀ b, table = rebuilt_table (set_buffers gltf [b]) blob repl)).
Proof.
  split.
  - intros E. unfold rebuild_blob_with_replacements. by rewrite E.
  - intros Hbv Hbuf. exists (rebuilt_table gltf blob repl). split; [|split].
    + unfold rebuilt_table, rebuild_blob_with_replacements.
      destruct (bufferViews gltf) eqn:E; [done|]. by rewrite Hbuf.
    + intros i bv Hi. by apply rebuilt_table_entry.
    + intros b. by rewrite !rebuild_table_any.
Qed.

(** Scenario A without a buffer descriptor: the error is raised and the
    table has moved from offsets 0/16/32 to 0/18/31; and a structure without
    regions is returned as it was. *)
Lemma rebuild_checks_not_atomic_witness :
  rebuild_blob_with_replacements no_regions_gltf scenarioA_blob ∅
  = (no_regions_gltf, inl (RuntimeError "No bufferViews found."))
  ∧ ∃ table,
      rebuild_blob_with_replacements scenarioA_no_buffers scenarioA_blob
        scenarioA_replacements
      = (set_bufferViews scenarioA_no_buffers table,
         inl (RuntimeError "No buffers found."))
      ∧ table = [ mkBufferView 0 (Some 0) (Some 10);
                  mkBufferView 0 (Some 18) (Some 3);
                  mkBufferView 0 (Some 31) (Some 5) ]
      ∧ table ≠ bufferViews scenarioA_no_buffers.
Proof.
  split.
  - apply (rebuild_checks_not_atomic no_regions_gltf scenarioA_blob ∅).
    reflexivity.
  - destruct (rebuild_checks_not_atomic scenarioA_no_buffers scenarioA_blob
                scenarioA_replacements) as [_ H].
    destruct H as (table & Hcall & _ & Htab); [done|done|].
    exists table. split; [exact Hcall|].
    rewrite (Htab (mkBuffer None)). vm_compute. split; [reflexivity|discriminate].
Defined.

(** ** Substring search *)

Lemma is_prefix_spec p s :
  is_prefix p s = true ↔ ∃ post, s = p +:+ post.
Proof.
  revert s. induction p as [|a p IH]; intros s; simpl.
  - split; [eauto|done].
  - destruct s as [|b s].
    + split; [done|]. intros [post Hpost]. discriminate.
    + destruct (Ascii.eqb_spec a b) as [->|Hne].
      * rewrite IH. split; intros [post Hpost]; exists post.
        -- by rewrite Hpost.
        -- by inversion Hpost.
      * split; [done|]. intros [post Hpost]. inversion Hpost. done.
Qed.

Lemma str_contains_spec needle hay :
  str_contains needle hay = true ↔ ∃ pre post, hay = pre +:+ needle +:+ post.
Proof.
  induction hay as [|c hay IH]; simpl.
  - rewrite orb_false_r, is_prefix_spec. split.
    + intros [post Hpost]. by exists EmptyString, post.
    + intros (pre & post & Hpost). destruct pre; [by exists post|done].
  - rewrite orb_true_iff, is_prefix_spec, IH. split.
    + intros [[post Hpost]|(pre & post & Hpost)].
      * by exists EmptyString, post.
      * exists (String c pre), post. simpl. by rewrite Hpost.
    + intros (pre & post & Hpost). destruct pre as [|c' pre].
      * left. by exists post.
      * right. simpl in Hpost. inversion Hpost. by exists pre, post.
Qed.

(** ** The set built by [get_normal_texture_image_indices] *)

Lemma elem_of_add_normal_textures ms acc t :
  t ∈ foldl add_normal_texture acc ms ↔
  t ∈ acc ∨ ∃ m nt, m ∈ ms ∧ normalTexture m = Some nt ∧ index nt = Some t.
Proof.
  revert acc. induction ms as [|m ms IH]; intros acc; simpl.
  - split; [by left|]. intros [?|(m & nt & Hm & _)]; [done|].
    by apply elem_of_nil in Hm.
  - rewrite IH. unfold add_normal_texture. split.
    + intros [Hacc|(m' & nt & Hm & Hnt & Hidx)].
      * destruct (normalTexture m) as [nt|] eqn:Hnt; [|by left].
        destruct (index nt) as [i|] eqn:Hidx; [|by left].
        apply elem_of_union in Hacc as [Hi|Hacc]; [|by left].
        apply elem_of_singleton in Hi as ->. right. exists m, nt.
        split; [by left|done].
      * right. exists m', nt. split; [by right|done].
    + intros [Hacc|(m' & nt & Hm & Hnt & Hidx)].
      * left. destruct (normalTexture m) as [nt|]; [|done].
        destruct (index nt); [|done]. apply elem_of_union. by right.
      * apply elem_of_cons in Hm as [->|Hm].
        -- left. rewrite Hnt, Hidx. apply elem_of_union. left.
           by apply elem_of_singleton.
        -- right. by exists m', nt.
Qed.

Lemma elem_of_add_texture_sources texs ts acc s :
  s ∈ foldl (add_texture_source texs) acc ts ↔
  s ∈ acc ∨ ∃ t tex, t ∈ ts ∧ texs !! t = Some tex ∧ source tex = Some s.
Proof.
  revert acc. induction ts as [|t ts IH]; intros acc; simpl.
  - split; [by left|]. intros [?|(t & tex & Ht & _)]; [done|].
    by apply elem_of_nil in Ht.
  - rewrite IH. unfold add_texture_source. split.
    + intros [Hacc|(t' & tex & Ht & Htex & Hsrc)].
      * destruct (t <? length texs); [|by left].
        destruct (texs !! t) as [tex|] eqn:Htex; [|by left].
        destruct (source tex) as [i|] eqn:Hsrc; [|by left].
        apply elem_of_union in Hacc as [Hi|Hacc]; [|by left].
        apply elem_of_singleton in Hi as ->. right. exists t, tex.
        split; [by left|done].
      * right. exists t', tex. split; [by right|done].
    + intros [Hacc|(t' & tex & Ht & Htex & Hsrc)].
      * left. destruct (t <? length texs); [|done].
        destruct (texs !! t) as [tex|]; [|done].
        destruct (source tex); [|done]. apply elem_of_union. by right.
      * apply elem_of_cons in Ht as [->|Ht].
        -- left. pose proof (lookup_lt_Some _ _ _ Htex) as Hlt.
           destruct (Nat.ltb_spec t (length texs)); [|lia].
           rewrite Htex, Hsrc. apply elem_of_union. left.
           by apply elem_of_singleton.
        -- right. by exists t', tex.
Qed.

Lemma elem_of_normal_texture_image_indices gltf k :
  k ∈ get_normal_texture_image_indices gltf ↔ normal_map_reachable gltf k.
Proof.
  unfold get_normal_texture_image_indices, normal_map_reachable.
  destruct (materials gltf) as [|m0 ms] eqn:Em.
  { split; [set_solver|]. intros (m & _ & _ & _ & Hm & _).
    by apply elem_of_nil in Hm. }
  destruct (textures gltf) as [|x0 xs] eqn:Et.
  { split; [set_solver|]. intros (_ & _ & t & tex & _ & _ & _ & Htex & _).
    by rewrite lookup_nil in Htex. }
  rewrite elem_of_add_texture_sources. split.
  - intros [Hk|(t & tex & Ht & Htex & Hsrc)]; [set_solver|].
    apply elem_of_elements, elem_of_add_normal_textures in Ht
      as [Ht|(m & nt & Hm & Hnt & Hidx)]; [set_solver|].
    by exists m, nt, t, tex.
  - intros (m & nt & t & tex & Hm & Hnt & Hidx & Htex & Hsrc).
    right. exists t, tex. split; [|done].
    apply elem_of_elements, elem_of_add_normal_textures. right. by exists m, nt.
Qed.

(** ** C6: classification order *)

Lemma image_class_of_thumbnail gltf k img :
  image_class_of gltf k img = Thumbnail ↔ name_has_thumbnail img.
Proof.
  unfold image_class_of, name_has_thumbnail.
  rewrite <- str_contains_spec.
  destruct (str_contains _ _); [done|].
  split; [|done]. by case_bool_decide.
Qed.

Lemma image_class_of_normal gltf k img :
  image_class_of gltf k img = NormalMap ↔
  ¬ name_has_thumbnail img ∧ normal_map_reachable gltf k.
Proof.
  unfold image_class_of, name_has_thumbnail.
  rewrite <- str_contains_spec, <- elem_of_normal_texture_image_indices.
  destruct (str_contains _ _).
  - split; [done|]. intros [Hn _]. by destruct Hn.
  - case_bool_decide; split; try done.
    intros [_ Hk]. done.
Qed.

Lemma image_class_of_general gltf k img :
  image_class_of gltf k img = General ↔
  ¬ name_has_thumbnail img ∧ ¬ normal_map_reachable gltf k.
Proof.
  unfold image_class_of, name_has_thumbnail.
  rewrite <- str_contains_spec, <- elem_of_normal_texture_image_indices.
  destruct (str_contains _ _).
  - split; [done|]. intros [Hn _]. by destruct Hn.
  - case_bool_decide; split; try done.
    intros [_ Hk]. done.
Qed.

Lemma select_policy_class cfg gltf k img :
  select_policy cfg (get_normal_texture_image_indices gltf) k img
  = policy_of cfg (image_class_of gltf k img).
Proof.
  unfold select_policy, image_class_of.
  destruct (str_contains _ _); [done|]. by case_bool_decide.
Qed.

Section classification.
Context `{Externals}.

(** C6. The (limit, quality) pair the loop uses for an image is the policy of
    its class, where the class is Thumbnail exactly when the lower-cased name
    contains thumbnail, NormalMap exactly when that fails and the index is
    the source of a texture that some material names as its normal map, and
    General exactly when both fail. The class depends on the structure only
    through its materials and textures and the image's name and index, and it
    is the policy under which a decodable image of the loop is saved. *)
Theorem classification_by_precedence
    (cfg : settings) (gltf : GLTF2) (img_index : nat) (img : GLTFImage) :
  let cls := image_class_of gltf img_index img in
  select_policy cfg (get_normal_texture_image_indices gltf) img_index img
    = policy_of cfg cls
  ∧ (cls = Thumbnail ↔ name_has_thumbnail img)
  ∧ (cls = NormalMap ↔
       ¬ name_has_thumbnail img ∧ normal_map_reachable gltf img_index)
  ∧ (cls = General ↔
       ¬ name_has_thumbnail img ∧ ¬ normal_map_reachable gltf img_index)
  ∧ (∀ gltf', materials gltf' = materials gltf →
       textures gltf' = textures gltf →
       image_class_of gltf' img_index img = cls)
  ∧ (∀ (blob : bytes) st bv_index bv im,
       bufferView img = Some bv_index →
       bufferViews gltf !! bv_index = Some bv →
       image_open (slice blob (bv_off bv) (bv_off bv + bv_len bv)) = Some im →
       ∃ st',
         encode_step cfg (bufferViews gltf) blob
           (get_normal_texture_image_indices gltf) st img_index img = inr st'
         ∧ replacements st' !! bv_index
           = Some (save_webp im (policy_of cfg cls).1 (policy_of cfg cls).2)
         ∧ last (codec_log st')
           = Some (EvSave img_index (policy_of cfg cls).1 (policy_of cfg cls).2)).
Proof.
  intros cls. split; [apply select_policy_class|].
  split; [apply image_class_of_thumbnail|].
  split; [apply image_class_of_normal|].
  split; [apply image_class_of_general|]. split.
  - intros gltf' Hm Ht. unfold cls, image_class_of,
      get_normal_texture_image_indices. by rewrite Hm, Ht.
  - intros blob st bv_index bv im Hbv Htab Hopen.
    unfold encode_step. rewrite Hbv, Htab. fold (bv_off bv) (bv_len bv).
    rewrite Hopen, select_policy_class. fold cls.
    destruct (policy_of cfg cls) as [limit quality]. simpl.
    eexists. split; [done|]. simpl. split.
    + apply lookup_insert_eq.
    + by rewrite last_app.
Qed.

End classification.

(** On the demonstration container: image 2 is named as a thumbnail and is
    also a normal-map source, and is classified Thumbnail; image 3 is a
    normal-map source only; image 0 is neither. *)
Lemma classification_by_precedence_witness :
  image_class_of demo_gltf 2 (mkImage (Some "Face_Thumbnail") (Some "image/png") (Some 2))
    = Thumbnail
  ∧ normal_map_reachable demo_gltf 2
  ∧ image_class_of demo_gltf 3 (mkImage (Some "Bump") (Some "image/png") (Some 3))
    = NormalMap
  ∧ image_class_of demo_gltf 0 (mkImage (Some "Body") (Some "image/png") (Some 0))
    = General.
Proof.
  pose proof (@classification_by_precedence toy_externals default_settings
                demo_gltf 2
                (mkImage (Some "Face_Thumbnail") (Some "image/png") (Some 2)))
    as (_ & Hth & _).
  split; [apply Hth; by exists "face_", ""|].
  split; [by exists (mkMaterial (Some (mkTextureInfo (Some 0)))),
            (mkTextureInfo (Some 0)), 0, (mkTexture (Some 2));
          repeat split; apply list_elem_of_here|].
  split; reflexivity.
Defined.

(** ** The image loop *)

Lemma elem_of_enumerate {A} (l : list A) k x :
  (k, x) ∈ enumerate l ↔ l !! k = Some x.
Proof.
  unfold enumerate. rewrite list_elem_of_lookup. split.
  - intros [i Hi]. apply lookup_zip_with_Some in Hi as (k' & x' & E & Hk & Hx).
    inversion E; subst. apply lookup_seq in Hk as [-> _]. done.
  - intros Hk. exists k. apply lookup_zip_with_Some. exists k, x.
    split; [done|]. split; [|done].
    apply lookup_seq. split; [done|]. by eapply lookup_lt_Some.
Qed.

Section image_loop.
Context `{Externals}.
Variables (cfg : settings) (table : list BufferView) (blob : bytes)
          (normal : gset nat).

Local Abbreviation step := (encode_step cfg table blob normal).
Local Abbreviation loop := (encode_loop cfg table blob normal).

Lemma encode_step_no_region st k img :
  bufferView img = None → step st k img = inr st.
Proof. intros E. unfold encode_step. by rewrite E. Qed.

Lemma encode_step_decode_failure st k img b bv :
  bufferView img = Some b → table !! b = Some bv →
  image_open (region_raw blob bv) = None →
  step st k img = inr (after_decode_failure st k (region_raw blob bv)).
Proof.
  intros Eb Et Eo. unfold encode_step, region_raw, bv_off, bv_len in *.
  by rewrite Eb, Et, Eo.
Qed.

Lemma encode_step_inv st k img st' :
  step st k img = inr st' →
  (∀ b d, replacements st' !! b = Some d →
     replacements st !! b = Some d
     ∨ (bufferView img = Some b ∧ reencoded table blob img))
  ∧ (∀ j, j ≠ k ∨ ¬ reencoded table blob img → imgs st' !! j = imgs st !! j)
  ∧ (∀ e, e ∈ codec_log st' →
       e ∈ codec_log st ∨ (event_index e = k ∧ bufferView img ≠ None)).
Proof.
  unfold encode_step.
  destruct (bufferView img) as [b|] eqn:Eb;
    [|intros [= <-]; split; [|split]; eauto].
  destruct (table !! b) as [bv|] eqn:Et; [|done].
  fold (bv_off bv) (bv_len bv). fold (region_raw blob bv).
  destruct (image_open (region_raw blob bv)) as [im|] eqn:Eo.
  - destruct (select_policy cfg normal k img) as [limit quality].
    intros [= <-]. simpl. split; [|split].
    + intros b' d Hd. destruct (decide (b' = b)) as [->|Hne].
      * right. split; [done|]. by exists b, bv, im.
      * left. by rewrite lookup_insert_ne in Hd.
    + intros j [Hj|Hj].
      * by rewrite list_lookup_insert_ne.
      * destruct Hj. by exists b, bv, im.
    + intros e He. apply elem_of_app in He as [He|He]; [by left|].
      right. split; [|done].
      apply elem_of_cons in He as [->|He]; [done|].
      apply elem_of_cons in He as [->|He]; [done|].
      by apply elem_of_nil in He.
  - intros [= <-]. simpl. split; [|split]; eauto.
    intros e He. apply elem_of_app in He as [He|He]; [by left|].
    right. split; [|done].
    apply elem_of_cons in He as [->|He]; [done|]. by apply elem_of_nil in He.
Qed.

Lemma encode_loop_app todo1 todo2 st :
  loop (todo1 ++ todo2) st =
  match loop todo1 st with
  | inl e => inl e
  | inr st1 => loop todo2 st1
  end.
Proof.
  revert st. induction todo1 as [|[k img] todo1 IH]; intros st; simpl; [done|].
  destruct (step st k img); [done|]. apply IH.
Qed.

Lemma encode_loop_inv todo st st' :
  loop todo st = inr st' →
  (∀ b d, replacements st' !! b = Some d →
     replacements st !! b = Some d
     ∨ ∃ k img, (k, img) ∈ todo ∧ bufferView img = Some b
                ∧ reencoded table blob img)
  ∧ (∀ j, (∀ img, (j, img) ∈ todo → ¬ reencoded table blob img) →
       imgs st' !! j = imgs st !! j)
  ∧ (∀ e, e ∈ codec_log st' →
       e ∈ codec_log st
       ∨ ∃ img, (event_index e, img) ∈ todo ∧ bufferView img ≠ None).
Proof.
  revert st. induction todo as [|[k img] todo IH]; intros st; simpl.
  - intros [= <-]. split; [|split]; eauto.
  - destruct (step st k img) as [e|st1] eqn:Es; [done|]. intros Hl.
    destruct (encode_step_inv _ _ _ _ Es) as (S1 & S2 & S3).
    destruct (IH _ Hl) as (L1 & L2 & L3). split; [|split].
    + intros b d Hd. destruct (L1 b d Hd) as [Hd1|(k' & img' & Hin & Hb & Hr)].
      * destruct (S1 b d Hd1) as [?|[Hb Hr]]; [by left|].
        right. exists k, img. split; [by left|done].
      * right. exists k', img'. split; [by right|done].
    + intros j Hj. rewrite L2.
      * apply S2. destruct (decide (j = k)) as [->|Hne]; [|by left].
        right. apply Hj. by left.
      * intros img' Hin. apply Hj. by right.
    + intros e He. destruct (L3 e He) as [He1|(img' & Hin & Hb)].
      * destruct (S3 e He1) as [?|[Hk Hb]]; [by left|].
        right. exists img. rewrite Hk. split; [by left|done].
      * right. exists img'. split; [by right|done].
Qed.

Lemma encode_loop_returns todo st :
  (∀ k img b, (k, img) ∈ todo → bufferView img = Some b → b < length table) →
  ∃ st', loop todo st = inr st'.
Proof.
  revert st. induction todo as [|[k img] todo IH]; intros st Hok; simpl; [eauto|].
  assert (∃ st1, step st k img = inr st1) as [st1 ->].
  { unfold encode_step. destruct (bufferView img) as [b|] eqn:Eb; [|eauto].
    destruct (lookup_lt_is_Some_2 table b) as [bv ->].
    { apply (Hok k img b); [by left|done]. }
    destruct (image_open _); [|eauto].
    destruct (select_policy _ _ _ _). eauto. }
  apply IH. intros k' img' b Hin. apply (Hok k' img' b). by right.
Qed.

End image_loop.

(** ** The pipeline on a structurally sound container *)

Lemma rebuild_images gltf (blob : bytes) repl :
  images (rebuild_blob_with_replacements gltf blob repl).1 = images gltf.
Proof.
  unfold rebuild_blob_with_replacements.
  destruct (bufferViews gltf); [done|]. by destruct (buffers gltf).
Qed.

Section pipeline.
Context `{Externals}.
Variables (cfg : settings) (gltf : GLTF2) (blob : bytes).

Lemma optimize_vrm_structure_no_images :
  images gltf = [] →
  optimize_vrm_structure cfg gltf blob
  = inl (SystemExit "No images found in the model.").
Proof. intros E. unfold optimize_vrm_structure. by rewrite E. Qed.

(** No structural exception: the loop runs to its end and the rebuild
    returns. *)
Lemma optimize_vrm_structure_returns :
  structurally_sound gltf →
  ∃ st out,
    encode_loop cfg (bufferViews gltf) blob
      (get_normal_texture_image_indices gltf) (enumerate (images gltf))
      (encode_start gltf) = inr st
    ∧ rebuilt_payload (set_images gltf (imgs st)) blob (replacements st)
      = inr out
    ∧ optimize_vrm_structure cfg gltf blob
      = inr ((rebuild_blob_with_replacements (set_images gltf (imgs st)) blob
                (replacements st)).1, out, st).
Proof.
  intros (Him & Hbuf & Hbv & Hreg).
  destruct (encode_loop_returns cfg (bufferViews gltf) blob
              (get_normal_texture_image_indices gltf)
              (enumerate (images gltf)) (encode_start gltf)) as [st Hst].
  { intros k img b Hin. apply Hreg. apply elem_of_enumerate in Hin.
    by eapply list_elem_of_lookup_2. }
  destruct (rebuild_returns (set_images gltf (imgs st)) blob (replacements st)
              Hbv Hbuf) as [Hout _].
  eexists st, _. split; [done|]. split; [exact Hout|].
  unfold optimize_vrm_structure. unfold encode_start in Hst.
  unfold rebuilt_payload in Hout.
  destruct (images gltf) eqn:E; [done|]. rewrite Hst.
  destruct (rebuild_blob_with_replacements _ _ _) as [g' r]. simpl in *.
  by rewrite Hout.
Qed.

End pipeline.

(** ** C8: an image whose bytes do not decode *)

Section decode_failure.
Context `{Externals}.

(** C8. On a structurally sound container, let image [k] refer to region [b]
    and let the region's bytes fail to decode. Then the loop goes on with the
    images after [k], from the state it had, recording only the failed call;
    the pipeline returns; [b] is not a key of the replacement set; the output
    holds the region's original bytes at the region's new offset, with its
    length unchanged; and image [k], MIME type included, is as it was. *)
Theorem decode_failure_leaves_image_untouched
    (cfg : settings) (gltf : GLTF2) (blob : bytes)
    (k : nat) (img : GLTFImage) (b : nat) (bv : BufferView) :
  structurally_sound gltf →
  images gltf !! k = Some img →
  bufferView img = Some b →
  bufferViews gltf !! b = Some bv →
  image_open (region_raw blob bv) = None →
  (∀ todo1 todo2 st0,
     encode_loop cfg (bufferViews gltf) blob
       (get_normal_texture_image_indices gltf) (todo1 ++ (k, img) :: todo2) st0
     = match encode_loop cfg (bufferViews gltf) blob
               (get_normal_texture_image_indices gltf) todo1 st0 with
       | inl e => inl e
       | inr st1 =>
         encode_loop cfg (bufferViews gltf) blob
           (get_normal_texture_image_indices gltf) todo2
           (after_decode_failure st1 k (region_raw blob bv))
       end)
  ∧ ∃ gltf' out st,
      optimize_vrm_structure cfg gltf blob = inr (gltf', out, st)
      ∧ replacements st !! b = None
      ∧ (∃ o, bufferViews gltf' !! b
              = Some (mkBufferView (buffer bv) (Some o) (Some (bv_len bv)))
              ∧ slice out o (o + length (region_raw blob bv))
                = region_raw blob bv)
      ∧ images gltf' !! k = Some img
      ∧ (images gltf' !! k ≫= mimeType) = mimeType img.
Proof.
  intros Hsound Hk Hb Hbv Hopen. split.
  - intros todo1 todo2 st0. rewrite encode_loop_app.
    destruct (encode_loop _ _ _ _ todo1 st0) as [e|st1]; [done|]. simpl.
    by rewrite (encode_step_decode_failure _ _ _ _ _ _ _ b bv).
  - destruct (optimize_vrm_structure_returns cfg gltf blob Hsound)
      as (st & out & Hloop & Hout & Hrun).
    destruct (encode_loop_inv _ _ _ _ _ _ _ Hloop) as (L1 & L2 & _).
    assert (Hnot : ∀ img', bufferView img' = Some b →
              ¬ reencoded (bufferViews gltf) blob img').
    { intros img' Hb' (b' & bv' & im & E1 & E2 & E3).
      rewrite Hb' in E1. inversion E1; subst b'.
      rewrite Hbv in E2. inversion E2; subst bv'. congruence. }
    assert (Hrepl : replacements st !! b = None).
    { destruct (replacements st !! b) as [d|] eqn:Hd; [|done].
      destruct (L1 b d Hd) as [Hd0|(k' & img' & _ & Hb' & Hr)].
      - simpl in Hd0. by rewrite lookup_empty in Hd0.
      - by destruct (Hnot img' Hb'). }
    assert (Himg : imgs st !! k = Some img).
    { rewrite L2; [done|]. intros img' Hin.
      apply elem_of_enumerate in Hin. rewrite Hk in Hin.
      inversion Hin; subst img'. by apply Hnot. }
    destruct Hsound as (_ & Hbuf & _ & _).
    destruct (rebuilt_region (set_images gltf (imgs st)) blob (replacements st)
                b bv Hbv Hbuf) as (o & out' & Htab & Hout' & Hraw & _).
    rewrite Hout in Hout'. inversion Hout'; subst out'.
    unfold region_len, region_bytes in *. rewrite Hrepl in *.
    eexists _, out, st. split; [exact Hrun|]. split; [done|].
    split; [by exists o|].
    rewrite rebuild_images. simpl. rewrite Himg. done.
Qed.

End decode_failure.

Lemma demo_gltf_sound : structurally_sound demo_gltf.
Proof.
  repeat split; try done.
  intros img b Hin Hb.
  repeat (apply elem_of_cons in Hin as [->|Hin]; [inversion Hb; simpl; lia|]).
  by apply elem_of_nil in Hin.
Defined.

(** Image 1 of the demonstration container, whose region starts with the
    byte the toy decoder rejects. *)
Lemma decode_failure_leaves_image_untouched_witness :
  ∃ gltf' out st,
    @optimize_vrm_structure toy_externals default_settings demo_gltf demo_blob
      = inr (gltf', out, st)
    ∧ replacements st !! 1 = None
    ∧ (∃ o, bufferViews gltf' !! 1
            = Some (mkBufferView 0 (Some o) (Some 4))
            ∧ slice out o (o + 4) = [xff; x0a; x0b; x0c])
    ∧ images gltf' !! 1
      = Some (mkImage (Some "Broken") (Some "image/png") (Some 1))
    ∧ (images gltf' !! 1 ≫= mimeType) = Some "image/png".
Proof.
  apply (@decode_failure_leaves_image_untouched toy_externals default_settings
           demo_gltf demo_blob 1
           (mkImage (Some "Broken") (Some "image/png") (Some 1)) 1
           (mkBufferView 0 (Some 4) (Some 4)) demo_gltf_sound);
    reflexivity.
Defined.

(** ** C10: no images at all, and images without a region *)

Section no_region.
Context `{Externals}.

(** C10. (1) When the structure declares no images, the pipeline raises
    [SystemExit], and so does [optimize_vrm_file] on a file holding that
    structure. (2) On a structurally sound container, an image without a
    region reference is passed over: its iteration leaves the loop state
    (replacement set, images, codec calls) as it was, the pipeline returns,
    no call to the decoder or encoder carries its index, and the image, MIME
    type included, is as it was in the output. *)
Theorem no_images_fatal_and_regionless_image_skipped
    (cfg : settings) (gltf : GLTF2) (blob : bytes) :
  (images gltf = [] →
     optimize_vrm_structure cfg gltf blob
       = inl (SystemExit "No images found in the model.")
     ∧ ∀ input_path output_path fs,
         fs !! input_path = Some (mkContainer gltf blob) →
         optimize_vrm_file input_path output_path cfg fs
         = inl (SystemExit "No images found in the model."))
  ∧
  (∀ k img,
     structurally_sound gltf →
     images gltf !! k = Some img →
     bufferView img = None →
     (∀ st0, encode_step cfg (bufferViews gltf) blob
               (get_normal_texture_image_indices gltf) st0 k img = inr st0)
     ∧ ∃ gltf' out st,
         optimize_vrm_structure cfg gltf blob = inr (gltf', out, st)
         ∧ (∀ e, e ∈ codec_log st → event_index e ≠ k)
         ∧ images gltf' !! k = Some img
         ∧ (images gltf' !! k ≫= mimeType) = mimeType img).
Proof.
  split.
  - intros E. split; [by apply optimize_vrm_structure_no_images|].
    intros input_path output_path fs Hfs. unfold optimize_vrm_file.
    rewrite Hfs. simpl. by rewrite optimize_vrm_structure_no_images.
  - intros k img Hsound Hk Hnone. split.
    + intros st0. by apply encode_step_no_region.
    + destruct (optimize_vrm_structure_returns cfg gltf blob Hsound)
        as (st & out & Hloop & Hout & Hrun).
      destruct (encode_loop_inv _ _ _ _ _ _ _ Hloop) as (_ & L2 & L3).
      eexists _, out, st. split; [exact Hrun|]. split; [|].
      * intros e He Hidx. destruct (L3 e He) as [He0|(img' & Hin & Hreg)].
        -- simpl in He0. by apply elem_of_nil in He0.
        -- apply elem_of_enumerate in Hin. rewrite Hidx, Hk in Hin.
           inversion Hin; subst img'. done.
      * rewrite rebuild_images. simpl. rewrite L2; [simpl; by rewrite Hk|].
        intros img' Hin (b & _ & _ & Hb & _).
        apply elem_of_enumerate in Hin. rewrite Hk in Hin.
        inversion Hin; subst img'. congruence.
Qed.

End no_region.

(** The structure without images, and image 4 of the demonstration
    container, which has no region. *)
Lemma no_images_fatal_and_regionless_image_skipped_witness :
  @optimize_vrm_structure toy_externals default_settings no_images_gltf
     scenarioA_blob
  = inl (SystemExit "No images found in the model.")
  ∧ ∃ gltf' out st,
      @optimize_vrm_structure toy_externals default_settings demo_gltf demo_blob
        = inr (gltf', out, st)
      ∧ (∀ e, e ∈ codec_log st → event_index e ≠ 4)
      ∧ images gltf' !! 4
        = Some (mkImage (Some "External") (Some "image/png") None)
      ∧ (images gltf' !! 4 ≫= mimeType) = Some "image/png".
Proof.
  split.
  - apply (@no_images_fatal_and_regionless_image_skipped toy_externals
             default_settings no_images_gltf scenarioA_blob). reflexivity.
  - apply (@no_images_fatal_and_regionless_image_skipped toy_externals
             default_settings demo_gltf demo_blob);
      [exact demo_gltf_sound|reflexivity|reflexivity].
Defined.

(** ** C7: the settings derived for each candidate pair *)

Lemma dedup_first_subset seen l x : x ∈ dedup_first seen l → x ∈ l.
Proof.
  revert seen. induction l as [|y l IH]; intros seen; simpl; [done|].
  destruct (decide (y ∈ seen)).
  - intros Hx. right. by eapply IH.
  - intros [->|Hx]%elem_of_cons; [by left|]. right. by eapply IH.
Qed.

Lemma elem_of_size_steps start s :
  s ∈ size_steps start →
  (128 ≤ s ≤ start)%Z ∧ s ∈ [start; 448; 384; 320; 256]%Z.
Proof.
  intros Hs. apply dedup_first_subset, list_elem_of_filter in Hs as [[? ?] ?].
  done.
Qed.

Lemma elem_of_quality_steps start q :
  q ∈ quality_steps start →
  (10 ≤ q ≤ start)%Z ∧ q ∈ [start; Z.min 65 start; 60; 55; 50; 45]%Z.
Proof.
  intros Hq. apply dedup_first_subset, list_elem_of_filter in Hq as [[? ?] ?].
  done.
Qed.

Lemma elem_of_candidates start cfg :
  cfg ∈ _candidate_settings_for_target start ↔
  ∃ s q, s ∈ size_steps (max_size start)
         ∧ q ∈ quality_steps (webp_quality start)
         ∧ cfg = candidate start s q.
Proof.
  unfold _candidate_settings_for_target. rewrite list_elem_of_bind. split.
  - intros (s & Hc & Hs). apply list_elem_of_bind in Hc as (q & Hc & Hq).
    apply list_elem_of_singleton in Hc. by exists s, q.
  - intros (s & q & Hs & Hq & ->). exists s. split; [|done].
    apply list_elem_of_bind. exists q. split; [|done].
    by apply list_elem_of_singleton.
Qed.

(** C7, as the claim states it, fails. With a baseline quality of 20 a
    generated candidate has thumbnail quality 30, above its main quality 20;
    with a baseline quality of 80 and the default normal-map quality 70 a
    generated candidate has normal-map quality 70, below its main quality
    80. *)
Lemma candidate_quality_order_fails :
  (∃ cfg, cfg ∈ _candidate_settings_for_target (mkSettings 512 20 512 45 512 70)
          ∧ webp_quality cfg = 20%Z ∧ thumb_quality cfg = 30%Z
          ∧ ¬ (thumb_quality cfg < webp_quality cfg)%Z)
  ∧ (∃ cfg, cfg ∈ _candidate_settings_for_target
                    (mkSettings 512 80 512 45 512 70)
            ∧ webp_quality cfg = 80%Z ∧ normal_quality cfg = 70%Z
            ∧ ¬ (webp_quality cfg < normal_quality cfg)%Z).
Proof.
  split.
  - exists (mkSettings 512 20 512 30 512 40).
    split; [by apply (list_elem_of_lookup_2 _ 0)|]. simpl. lia.
  - exists (mkSettings 512 80 512 45 512 70).
    split; [by apply (list_elem_of_lookup_2 _ 0)|]. simpl. lia.
Qed.

(** C7, amended. For every generated candidate, with [s] its main resolution
    and [q] its main quality: [128 ≤ s ≤] the baseline resolution and
    [10 ≤ q ≤] the baseline quality; the thumbnail resolution is at most
    [max(256, s)] and the normal-map resolution at most [s]; the thumbnail
    quality is at most [max(30, q - 10)], so it is below [q] whenever
    [q > 30]; the normal-map quality is at most [max(40, q + 5)], and it is
    above [q] whenever the baseline normal-map quality is. With the
    command-line defaults the three orderings of the claim hold for every
    candidate. *)
Theorem candidate_derived_settings (start cfg : settings) :
  cfg ∈ _candidate_settings_for_target start →
  let s := max_size cfg in
  let q := webp_quality cfg in
  (128 ≤ s ≤ max_size start)%Z ∧ (10 ≤ q ≤ webp_quality start)%Z
  ∧ cfg = candidate start s q
  ∧ (thumb_max cfg ≤ Z.max 256 s)%Z
  ∧ (normal_max cfg ≤ s)%Z
  ∧ (thumb_quality cfg ≤ Z.max 30 (q - 10))%Z
  ∧ (30 < q → thumb_quality cfg < q)%Z
  ∧ (normal_quality cfg ≤ Z.max 40 (q + 5))%Z
  ∧ (q < normal_quality start → q < normal_quality cfg)%Z
  ∧ (start = default_settings →
       (thumb_max cfg ≤ s)%Z ∧ (thumb_quality cfg < q)%Z
       ∧ (q < normal_quality cfg)%Z).
Proof.
  intros (s0 & q0 & Hs & Hq & ->)%elem_of_candidates. simpl.
  apply elem_of_size_steps in Hs as [Hs Hs'].
  apply elem_of_quality_steps in Hq as [Hq Hq'].
  repeat (split; [first [lia|done]|]).
  intros ->. simpl in *.
  assert (256 ≤ s0)%Z.
  { repeat (apply elem_of_cons in Hs' as [->|Hs']; [lia|]).
    by apply elem_of_nil in Hs'. }
  assert (45 ≤ q0)%Z.
  { repeat (apply elem_of_cons in Hq' as [->|Hq']; [lia|]).
    by apply elem_of_nil in Hq'. }
  lia.
Qed.

(** The sixth default candidate: resolution 448, quality 55. *)
Lemma candidate_derived_settings_witness :
  (128 ≤ 448 ≤ 512)%Z ∧ (10 ≤ 55 ≤ 60)%Z
  ∧ mkSettings 448 55 448 45 448 60 = candidate default_settings 448 55
  ∧ (448 ≤ Z.max 256 448)%Z
  ∧ (448 ≤ 448)%Z
  ∧ (45 ≤ Z.max 30 (55 - 10))%Z
  ∧ (30 < 55 → 45 < 55)%Z
  ∧ (60 ≤ Z.max 40 (55 + 5))%Z
  ∧ (55 < 70 → 55 < 60)%Z
  ∧ (default_settings = default_settings →
       (448 ≤ 448)%Z ∧ (45 < 55)%Z ∧ (55 < 60)%Z).
Proof.
  apply (candidate_derived_settings default_settings
           (mkSettings 448 55 448 45 448 60)).
  by apply (list_elem_of_lookup_2 _ 5).
Defined.

(** ** C5: the search loop *)

Lemma update_best_inv best log out_size cfg :
  best_inv best log →
  best_inv (update_best best out_size cfg) (log ++ [(cfg, out_size)]).
Proof.
  unfold best_inv, update_best. destruct best as [[bs bc]|].
  - intros [Hin Hmin]. destruct (Z.ltb_spec out_size bs).
    + split; [apply elem_of_app; right; by left|].
      intros c s [Hcs|Hcs]%elem_of_app.
      * specialize (Hmin c s Hcs). lia.
      * apply list_elem_of_singleton in Hcs. inversion Hcs. lia.
    + split; [apply elem_of_app; by left|].
      intros c s [Hcs|Hcs]%elem_of_app; [by apply (Hmin c)|].
      apply list_elem_of_singleton in Hcs. inversion Hcs. lia.
  - intros ->. simpl. split; [by left|].
    intros c s Hcs. apply list_elem_of_singleton in Hcs. inversion Hcs. lia.
Qed.

Section search.
Context `{Externals}.
Variables (input_path output_path : string) (target_bytes max_attempts : Z).

Lemma search_loop_spec cands :
  ∀ tried attempts best log fs,
    attempts = Z.of_nat (length log) →
    map fst log = tried →
    best_inv best log →
    (∀ c s, (c, s) ∈ log → (target_bytes < s)%Z) →
    (Z.of_nat (length log) ≤ Z.max 0 max_attempts)%Z →
    let r := search_loop input_path output_path target_bytes max_attempts
               cands attempts best log fs in
    map fst (attempt_log r) `prefix_of` (tried ++ cands)
    ∧ (Z.of_nat (length (attempt_log r)) ≤ Z.max 0 max_attempts)%Z
    ∧ search_post target_bytes max_attempts (tried ++ cands)
        (attempt_log r) (outcome r).
Proof.
  induction cands as [|cfg rest IH];
    intros tried attempts best log fs Hatt Htried Hbest Hmiss Hlen; simpl.
  - rewrite app_nil_r. split; [by rewrite Htried|]. split; [done|].
    unfold search_finish, best_inv in *. destruct best as [[bs bc]|]; simpl.
    + destruct Hbest. eauto 6.
    + subst log. simpl in Htried. subst tried. eauto.
  - destruct (Z.ltb_spec max_attempts (attempts + 1)) as [Hover|Hin]; simpl.
    { split; [rewrite Htried; by apply prefix_app_r|]. split; [done|].
      unfold search_finish, best_inv in *. destruct best as [[bs bc]|]; simpl.
      - destruct Hbest. split; [done|]. split; [done|]. split; [done|].
        right. lia.
      - subst log. simpl in *. split; [done|]. right. lia. }
    destruct (optimize_vrm_file input_path output_path cfg fs) as [e|fs'];
      simpl.
    { split; [rewrite Htried; by apply prefix_app_r|]. done. }
    destruct (getsize fs' output_path) as [e|out_size]; simpl.
    { split; [rewrite Htried; by apply prefix_app_r|]. done. }
    assert (Hlen' : Z.of_nat (length (log ++ [(cfg, out_size)]))
                    = (attempts + 1)%Z).
    { rewrite length_app. simpl. lia. }
    assert (Htried' : map fst (log ++ [(cfg, out_size)]) = tried ++ [cfg]).
    { by rewrite map_app, Htried. }
    destruct (Z.leb_spec out_size target_bytes) as [Hhit|Hmissed]; simpl.
    + split.
      { rewrite Htried'. rewrite (cons_middle cfg tried rest), app_assoc.
        by apply prefix_app_r. }
      split; [lia|]. exists log, cfg. repeat split; [done|done|lia].
    + specialize (IH (tried ++ [cfg]) (attempts + 1)%Z
                     (update_best best out_size cfg)
                     (log ++ [(cfg, out_size)]) fs').
      rewrite <- app_assoc in IH. simpl in IH. apply IH.
      * lia.
      * done.
      * by apply update_best_inv.
      * intros c s [Hcs|Hcs]%elem_of_app; [by apply (Hmiss c)|].
        apply list_elem_of_singleton in Hcs. inversion Hcs. lia.
      * lia.
Qed.

(** C5. The attempts made are the generated candidates in order, none
    skipped, and never more than [max_attempts] of them. The function reports
    a hit exactly for the last attempt made, whose size is at most the
    target while every earlier one was above it. When it reports a miss,
    every attempt was above the target, the candidates or the budget ran out,
    and the reported size is the smallest one measured, with the settings of
    an attempt that measured it. It reports nothing only when no attempt was
    made. If an attempt raises, the attempts before it all missed. *)
Theorem search_stops_at_first_hit_or_reports_best
    (start : settings) (fs : gmap string container) :
  let r := optimize_vrm_to_target input_path output_path target_bytes start
             max_attempts fs in
  map fst (attempt_log r) `prefix_of` _candidate_settings_for_target start
  ∧ (Z.of_nat (length (attempt_log r)) ≤ Z.max 0 max_attempts)%Z
  ∧ search_post target_bytes max_attempts
      (_candidate_settings_for_target start) (attempt_log r) (outcome r).
Proof.
  apply (search_loop_spec (_candidate_settings_for_target start) [] 0%Z None
           [] fs); try done.
  - intros c s Hcs. by apply elem_of_nil in Hcs.
  - simpl. lia.
Qed.

End search.

(** ** C3: which container an attempt starts from *)

Section stacking.
Context `{Externals}.
Variables (input_path output_path : string) (target_bytes max_attempts : Z).

Lemma optimize_vrm_file_input_kept cfg fs fs' :
  input_path ≠ output_path →
  optimize_vrm_file input_path output_path cfg fs = inr fs' →
  fs' !! input_path = fs !! input_path.
Proof.
  intros Hne%not_eq_sym. unfold optimize_vrm_file.
  destruct (fs !! input_path) as [c|] eqn:Hc; [|done].
  destruct (optimize_vrm_structure _ _ _) as [e|[[g b] st]]; [done|].
  intros [= <-]. by rewrite lookup_insert_ne.
Qed.

(** With distinct paths the loop's behaviour depends on the file system
    only through the input file. *)
Local Ltac search_unchanged :=
  intros; repeat split; try done; by right.

Lemma search_loop_separate cands :
  input_path ≠ output_path →
  ∀ attempts best log fs1 fs2,
    fs1 !! input_path = fs2 !! input_path →
    let r1 := search_loop input_path output_path target_bytes max_attempts
                cands attempts best log fs1 in
    let r2 := search_loop input_path output_path target_bytes max_attempts
                cands attempts best log fs2 in
    outcome r1 = outcome r2
    ∧ attempt_log r1 = attempt_log r2
    ∧ final_fs r1 !! input_path = fs1 !! input_path
    ∧ (final_fs r1 !! output_path = final_fs r2 !! output_path
       ∨ (final_fs r1 = fs1 ∧ final_fs r2 = fs2)).
Proof.
  intros Hne%not_eq_sym. induction cands as [|cfg rest IH];
    intros attempts best log fs1 fs2 Hin; simpl; [by search_unchanged|].
  destruct (max_attempts <? attempts + 1)%Z; simpl; [by search_unchanged|].
  unfold optimize_vrm_file. rewrite <- Hin.
  destruct (fs1 !! input_path) as [c|] eqn:Hc; simpl; [|by search_unchanged].
  destruct (optimize_vrm_structure cfg (structure c) (payload c))
    as [e|[[g b] st]]; simpl; [by search_unchanged|].
  unfold getsize. rewrite !lookup_insert_eq. simpl.
  destruct (glb_size g b <=? target_bytes)%Z; simpl.
  - repeat split; [by rewrite lookup_insert_ne|].
    left. by rewrite !lookup_insert_eq.
  - set (fs1' := <[output_path := _]> fs1).
    set (fs2' := <[output_path := _]> fs2).
    assert (Hin' : fs1' !! input_path = fs2' !! input_path).
    { unfold fs1', fs2'. rewrite !lookup_insert_ne by done. by rewrite Hc. }
    destruct (IH (attempts + 1)%Z (update_best best (glb_size g b) cfg)
                (log ++ [(cfg, glb_size g b)]) fs1' fs2' Hin')
      as (Ho & Hl & Hi & Hf).
    split; [done|]. split; [done|]. split.
    + rewrite Hi. unfold fs1'. by rewrite lookup_insert_ne.
    + left. destruct Hf as [Hf|[-> ->]]; [done|].
      unfold fs1', fs2'. by rewrite !lookup_insert_eq.
Qed.

(** With distinct paths every logged attempt is the pipeline run on the
    container stored at the input path when the search began. *)
Lemma search_loop_from_original cands c0 :
  input_path ≠ output_path →
  ∀ attempts best log fs,
    fs !! input_path = Some c0 →
    let r := search_loop input_path output_path target_bytes max_attempts
               cands attempts best log fs in
    ∃ log2, attempt_log r = log ++ log2
      ∧ ∀ cfg sz, (cfg, sz) ∈ log2 →
          ∃ g b st,
            optimize_vrm_structure cfg (structure c0) (payload c0)
              = inr (g, b, st)
            ∧ sz = glb_size g b.
Proof.
  intros Hne%not_eq_sym. induction cands as [|cfg rest IH];
    intros attempts best log fs Hin; simpl.
  { exists []. rewrite app_nil_r. split; [done|]. intros ? ? []%elem_of_nil. }
  assert (Hnil : ∃ log2 : list (settings * Z), log = log ++ log2
            ∧ ∀ cfg sz, (cfg, sz) ∈ log2 →
                ∃ g b st,
                  optimize_vrm_structure cfg (structure c0) (payload c0)
                    = inr (g, b, st) ∧ sz = glb_size g b).
  { exists []. rewrite app_nil_r. split; [done|]. intros ? ? []%elem_of_nil. }
  destruct (max_attempts <? attempts + 1)%Z; simpl; [done|].
  unfold optimize_vrm_file. rewrite Hin.
  destruct (optimize_vrm_structure cfg (structure c0) (payload c0))
    as [e|[[g b] st]] eqn:Hrun; simpl; [done|].
  unfold getsize. rewrite !lookup_insert_eq. simpl.
  assert (Hone : ∀ cfg' sz, (cfg', sz) ∈ [(cfg, glb_size g b)] →
            ∃ g' b' st',
              optimize_vrm_structure cfg' (structure c0) (payload c0)
                = inr (g', b', st') ∧ sz = glb_size g' b').
  { intros cfg' sz Hcs. apply list_elem_of_singleton in Hcs.
    inversion Hcs; subst. eauto. }
  destruct (glb_size g b <=? target_bytes)%Z; simpl; [by eauto|].
  destruct (IH (attempts + 1)%Z (update_best best (glb_size g b) cfg)
              (log ++ [(cfg, glb_size g b)])
              (<[output_path := mkContainer g b]> fs)) as (log2 & Hl & Hall).
  { by rewrite lookup_insert_ne. }
  exists ((cfg, glb_size g b) :: log2). split.
  - rewrite Hl. by rewrite <- app_assoc.
  - intros cfg' sz [Hcs|Hcs]%elem_of_cons; [|by apply Hall].
    apply Hone. rewrite Hcs. by left.
Qed.

(** X1 (the sibling path of C3). When the output path differs from the
    input path, every attempt runs on the original container, the input file is
    left as it was, and a second search with the same parameters reports the
    same, measures the same sizes and leaves the same output file. *)
Theorem separate_output_search_never_stacks
    (start : settings) (fs : gmap string container) (c0 : container) :
  input_path ≠ output_path →
  fs !! input_path = Some c0 →
  let r := optimize_vrm_to_target input_path output_path target_bytes start
             max_attempts fs in
  let r' := optimize_vrm_to_target input_path output_path target_bytes start
              max_attempts (final_fs r) in
  (∀ cfg sz, (cfg, sz) ∈ attempt_log r →
     ∃ g b st,
       optimize_vrm_structure cfg (structure c0) (payload c0) = inr (g, b, st)
       ∧ sz = glb_size g b)
  ∧ final_fs r !! input_path = Some c0
  ∧ outcome r' = outcome r
  ∧ attempt_log r' = attempt_log r
  ∧ final_fs r' !! output_path = final_fs r !! output_path.
Proof.
  intros Hne Hin r r'.
  destruct (search_loop_from_original (_candidate_settings_for_target start)
              c0 Hne 0%Z None [] fs Hin) as (log2 & Hl & Hall).
  fold (optimize_vrm_to_target input_path output_path target_bytes start
          max_attempts fs) in Hl. fold r in Hl. simpl in Hl.
  destruct (search_loop_separate (_candidate_settings_for_target start) Hne
              0%Z None [] fs fs eq_refl) as (_ & _ & Hkeep & _).
  fold (optimize_vrm_to_target input_path output_path target_bytes start
          max_attempts fs) in Hkeep. fold r in Hkeep.
  destruct (search_loop_separate (_candidate_settings_for_target start) Hne
              0%Z None [] fs (final_fs r)) as (Ho & Hlog & _ & Hf).
  { by rewrite Hkeep. }
  fold (optimize_vrm_to_target input_path output_path target_bytes start
          max_attempts fs) in Ho, Hlog, Hf.
  fold (optimize_vrm_to_target input_path output_path target_bytes start
          max_attempts (final_fs r)) in Ho, Hlog, Hf.
  fold r in Ho, Hlog, Hf. fold r' in Ho, Hlog, Hf.
  split; [by rewrite Hl|]. split; [by rewrite Hkeep|].
  split; [done|]. split; [done|].
  destruct Hf as [Hf|[_ Hf]]; [done|]. by rewrite Hf.
Qed.

End stacking.

(** The search with a separate output file on the single-image container:
    the first run hits the target at its fourth attempt, and the second run
    repeats it. *)
Lemma separate_output_search_never_stacks_witness :
  let r := @optimize_vrm_to_target toy_externals "avatar.vrm" "out.vrm" 7
             default_settings 12 single_fs in
  let r' := @optimize_vrm_to_target toy_externals "avatar.vrm" "out.vrm" 7
              default_settings 12 (final_fs r) in
  final_fs r !! "avatar.vrm" = Some (mkContainer single_gltf single_blob)
  ∧ outcome r' = outcome r
  ∧ attempt_log r' = attempt_log r
  ∧ final_fs r' !! "out.vrm" = final_fs r !! "out.vrm".
Proof.
  apply (@separate_output_search_never_stacks toy_externals "avatar.vrm"
           "out.vrm" 7 12 default_settings single_fs
           (mkContainer single_gltf single_blob)); [done|reflexivity].
Defined.

(** With the output path equal to the input path, whatever the codec and
    whatever the file format keeps of a saved container: the first attempt
    replaces the input file by its own output, and the second attempt runs
    the pipeline on that output as reloaded, not on the original. *)
Lemma inplace_second_attempt_input `{Externals} `{GLBStore}
    (p : string) (cfg1 cfg2 : settings) (fs : gmap string container)
    (c0 : container) (g1 : GLTF2) (b1 : bytes) (st1 : encode_state) :
  fs !! p = Some c0 →
  optimize_vrm_structure cfg1 (structure c0) (payload c0) = inr (g1, b1, st1) →
  ∃ fs1,
    optimize_vrm_file_on_disk p p cfg1 fs = inr fs1
    ∧ fs1 !! p = Some (glb_reload g1 b1)
    ∧ optimize_vrm_file_on_disk p p cfg2 fs1
      = match optimize_vrm_structure cfg2 (structure (glb_reload g1 b1))
                (payload (glb_reload g1 b1)) with
        | inl e => inl e
        | inr (g2, b2, _) => inr (<[p := glb_reload g2 b2]> fs1)
        end.
Proof.
  intros Hfs Hrun. exists (<[p := glb_reload g1 b1]> fs).
  unfold optimize_vrm_file_on_disk. rewrite Hfs, Hrun.
  split; [done|]. by rewrite lookup_insert_eq.
Qed.

(** With the verbatim store the on-disk definitions are the ones above. *)
Lemma optimize_vrm_file_on_disk_verbatim `{Externals}
    (input_path output_path : string) (cfg : settings)
    (fs : gmap string container) :
  @optimize_vrm_file_on_disk _ verbatim_store input_path output_path cfg fs
  = optimize_vrm_file input_path output_path cfg fs.
Proof. done. Qed.

(** C3. With the output path equal to the input path, the second attempt
    starts from what the first attempt wrote, for every codec and every
    file format (first conjunct). On the single-image container with the toy
    codec and the re-packing store: attempt 1 (quality 60) leaves a payload
    02..07; attempt 2 (quality 55) run in place leaves 03..07, where the same
    attempt on the original leaves 02..06. The search with a separate output
    file hits the target 7 at its fourth attempt and leaves 02..05, each
    attempt made from the original; the same search in place hits it at its
    third attempt and leaves 04..07, the result of three stacked encodings.
    A second in-place search with the same parameters leaves yet another
    file. *)
Theorem inplace_search_stacks_attempts :
  let p := "avatar.vrm"%string in
  let c1 := candidate default_settings 512 60 in
  let c2 := candidate default_settings 512 55 in
  let run_file := @optimize_vrm_file_on_disk toy_externals repacking_store in
  let attempt1 := run_file p p c1 single_fs in
  let inplace2 :=
    match attempt1 with
    | inl e => inl e
    | inr fs1 => run_file p p c2 fs1
    end in
  let original2 := run_file p p c2 single_fs in
  let search out fs :=
    @optimize_vrm_to_target_on_disk toy_externals repacking_store p out 7
      default_settings 12 fs in
  (∀ (E : Externals) (S : GLBStore) (q : string) (cfg1 cfg2 : settings)
     (fs : gmap string container) (c0 : container)
     (g1 : GLTF2) (b1 : bytes) (st1 : encode_state),
     fs !! q = Some c0 →
     optimize_vrm_structure cfg1 (structure c0) (payload c0)
       = inr (g1, b1, st1) →
     ∃ fs1,
       optimize_vrm_file_on_disk q q cfg1 fs = inr fs1
       ∧ fs1 !! q = Some (glb_reload g1 b1)
       ∧ optimize_vrm_file_on_disk q q cfg2 fs1
         = match optimize_vrm_structure cfg2 (structure (glb_reload g1 b1))
                   (payload (glb_reload g1 b1)) with
           | inl e => inl e
           | inr (g2, b2, _) => inr (<[q := glb_reload g2 b2]> fs1)
           end)
  ∧ _candidate_settings_for_target default_settings !! 0 = Some c1
  ∧ _candidate_settings_for_target default_settings !! 1 = Some c2
  ∧ payload_at attempt1 p
    = Some [x02; x03; x04; x05; x06; x07; x00; x00]
  ∧ payload_at inplace2 p
    = Some [x03; x04; x05; x06; x07; x00; x00; x00]
  ∧ payload_at original2 p
    = Some [x02; x03; x04; x05; x06; x00; x00; x00]
  ∧ outcome (search "out.vrm"%string single_fs) = inr (HitTarget 4 4)
  ∧ payload <$> final_fs (search "out.vrm"%string single_fs) !! "out.vrm"
    = Some [x02; x03; x04; x05]
  ∧ outcome (search p single_fs) = inr (HitTarget 3 4)
  ∧ payload <$> final_fs (search p single_fs) !! p
    = Some [x04; x05; x06; x07]
  ∧ payload <$> final_fs (search p (final_fs (search p single_fs))) !! p
    = Some [x05; x06; x07; x00].
Proof.
  split.
  - intros E S q cfg1 cfg2 fs c0 g1 b1 st1.
    apply inplace_second_attempt_input.
  - vm_compute. repeat split.
Qed.

(** The search of C5 on the single-image container: with target 7 the
    fourth attempt is the first at or under the target; with target 0 the
    budget of 12 runs out and the smallest size seen, 4, is reported. *)
Lemma search_stops_at_first_hit_or_reports_best_witness :
  let r := @optimize_vrm_to_target toy_externals "avatar.vrm" "out.vrm" 7
             default_settings 12 single_fs in
  let r0 := @optimize_vrm_to_target toy_externals "avatar.vrm" "out.vrm" 0
              default_settings 12 single_fs in
  (outcome r = inr (HitTarget 4 4)
   ∧ search_post 7 12 (_candidate_settings_for_target default_settings)
       (attempt_log r) (inr (HitTarget 4 4))
   ∧ map snd (attempt_log r) = [8; 8; 8; 4]%Z)
  ∧ (outcome r0 = inr (CouldNotReach 13 4 (candidate default_settings 512 45))
     ∧ search_post 0 12 (_candidate_settings_for_target default_settings)
         (attempt_log r0)
         (inr (CouldNotReach 13 4 (candidate default_settings 512 45)))
     ∧ Z.of_nat (length (attempt_log r0)) = 12%Z).
Proof.
  intros r r0.
  assert (E : outcome r = inr (HitTarget 4 4)) by (vm_compute; reflexivity).
  assert (E0 : outcome r0
               = inr (CouldNotReach 13 4 (candidate default_settings 512 45)))
    by (vm_compute; reflexivity).
  split.
  - split; [exact E|]. split; [|vm_compute; reflexivity]. rewrite <- E.
    apply (@search_stops_at_first_hit_or_reports_best toy_externals).
  - split; [exact E0|]. split; [|vm_compute; reflexivity]. rewrite <- E0.
    apply (@search_stops_at_first_hit_or_reports_best toy_externals).
Defined.

(** ** Length accounting and disjointness of the rebuilt regions *)

(** X2. On a call that returns, the first buffer descriptor's declared
    length is the length of the returned payload, and the other descriptors
    are as they were. *)
Theorem rebuild_length_accounting
    (gltf : GLTF2) (blob : bytes) (repl : gmap nat bytes) :
  bufferViews gltf ≠ [] → buffers gltf ≠ [] →
  ∃ out,
    rebuilt_payload gltf blob repl = inr out
    ∧ buffers (rebuild_blob_with_replacements gltf blob repl).1
      = mkBuffer (Some (length out)) :: tail (buffers gltf).
Proof.
  intros Hbv Hbuf. unfold rebuilt_payload, rebuild_blob_with_replacements.
  destruct (bufferViews gltf) eqn:E1; [done|].
  destruct (buffers gltf) eqn:E2; [done|]. simpl. eauto.
Qed.

Lemma rebuild_length_accounting_witness :
  ∃ out,
    rebuilt_payload scenarioA_gltf scenarioA_blob scenarioA_replacements
      = inr out
    ∧ buffers (rebuild_blob_with_replacements scenarioA_gltf scenarioA_blob
                 scenarioA_replacements).1
      = [mkBuffer (Some (length out))].
Proof.
  apply (rebuild_length_accounting scenarioA_gltf scenarioA_blob
           scenarioA_replacements); done.
Defined.

Lemma length_pad4_ge (data : bytes) : length data ≤ length (pad4 data).
Proof. rewrite length_pad4. lia. Qed.

Section disjoint.
Variables (blob : bytes) (repl : gmap nat bytes).

(** A region written earlier ends, padding included, at or before the start
    of a region written later. *)
Lemma rebuild_loop_earlier_later pre i mid j post st bvi bvj :
  NoDup (pre ++ i :: mid ++ j :: post) →
  bvs st !! i = Some bvi → bvs st !! j = Some bvj →
  let fin := rebuild_loop blob repl (pre ++ i :: mid ++ j :: post) st in
  ∃ oi oj,
    bvs fin !! i = Some (mkBufferView (buffer bvi) (Some oi)
                           (Some (region_len repl i bvi)))
    ∧ bvs fin !! j = Some (mkBufferView (buffer bvj) (Some oj)
                             (Some (region_len repl j bvj)))
    ∧ oi + length (pad4 (region_bytes blob repl i bvi)) ≤ oj.
Proof.
  intros Hnd Hi Hj fin.
  destruct (rebuild_loop_visit blob repl pre i (mid ++ j :: post) st bvi
              Hnd Hi) as [Hti _].
  assert (Hnd' : NoDup ((pre ++ i :: mid) ++ j :: post)).
  { by rewrite <- app_assoc. }
  destruct (rebuild_loop_visit blob repl (pre ++ i :: mid) j post st bvj
              Hnd' Hj) as [Htj _].
  rewrite <- app_assoc in Htj. simpl in Htj. fold fin in Hti, Htj.
  eexists _, _. split; [exact Hti|]. split; [exact Htj|].
  rewrite rebuild_loop_app, rebuild_loop_cons.
  assert (Hi1 : bvs (rebuild_loop blob repl pre st) !! i = Some bvi).
  { rewrite rebuild_loop_bvs_notin; [done|].
    apply NoDup_app in Hnd as (_ & Hpre & _). intros Hin.
    apply (Hpre i Hin). by left. }
  rewrite (rebuild_step_eq _ _ _ _ _ Hi1). simpl.
  match goal with |- context [rebuild_loop blob repl mid ?s] =>
    destruct (rebuild_loop_prefix blob repl mid s) as [y ->] end.
  simpl. rewrite !length_app. lia.
Qed.

End disjoint.

(** X3. On a call that returns, take two different regions, each either
    replaced or lying within the original payload. Their rebuilt ranges
    [[byteOffset, byteOffset + byteLength)] do not overlap. *)
Theorem rebuilt_regions_disjoint
    (gltf : GLTF2) (blob : bytes) (repl : gmap nat bytes)
    (i j : nat) (bvi bvj : BufferView) :
  i ≠ j →
  bufferViews gltf !! i = Some bvi → bufferViews gltf !! j = Some bvj →
  (is_Some (repl !! i) ∨ bv_off bvi + bv_len bvi ≤ length blob) →
  (is_Some (repl !! j) ∨ bv_off bvj + bv_len bvj ≤ length blob) →
  ∃ oi oj,
    rebuilt_table gltf blob repl !! i
      = Some (mkBufferView (buffer bvi) (Some oi) (Some (region_len repl i bvi)))
    ∧ rebuilt_table gltf blob repl !! j
      = Some (mkBufferView (buffer bvj) (Some oj) (Some (region_len repl j bvj)))
    ∧ (oi + region_len repl i bvi ≤ oj ∨ oj + region_len repl j bvj ≤ oi).
Proof.
  intros Hne Hi Hj Hfi Hfj.
  assert (Hbv : bufferViews gltf ≠ []) by (intros E; by rewrite E in Hi).
  rewrite rebuild_table_any by done.
  assert (Hlen : ∀ k bv, (is_Some (repl !! k) ∨ bv_off bv + bv_len bv ≤ length blob) →
            region_len repl k bv ≤ length (pad4 (region_bytes blob repl k bv))).
  { intros k bv Hf. etrans; [|apply length_pad4_ge].
    unfold region_len, region_bytes. destruct (repl !! k) as [d|]; [done|].
    destruct Hf as [[? [=]]|Hf]. rewrite length_slice. lia. }
  pose proof (rebuild_order_NoDup (bufferViews gltf)) as Hnd.
  pose proof (rebuild_order_elem _ _ (lookup_lt_Some _ _ _ Hi)) as Hini.
  pose proof (rebuild_order_elem _ _ (lookup_lt_Some _ _ _ Hj)) as Hinj.
  apply list_elem_of_split in Hini as (l1 & l2 & Hord). rewrite Hord in *.
  apply elem_of_app in Hinj as [Hinj|Hinj].
  - apply list_elem_of_split in Hinj as (pre & mid & ->).
    rewrite <- app_assoc in *. simpl in *.
    destruct (rebuild_loop_earlier_later blob repl pre j mid i l2
                (rebuild_start gltf) bvj bvi Hnd Hj Hi)
      as (oj & oi & Htj & Hti & Hle).
    exists oi, oj. split; [done|]. split; [done|]. right.
    specialize (Hlen j bvj Hfj). lia.
  - apply elem_of_cons in Hinj as [->|Hinj]; [done|].
    apply list_elem_of_split in Hinj as (mid & post & ->).
    destruct (rebuild_loop_earlier_later blob repl l1 i mid j post
                (rebuild_start gltf) bvi bvj Hnd Hi Hj)
      as (oi & oj & Hti & Htj & Hle).
    exists oi, oj. split; [done|]. split; [done|]. left.
    specialize (Hlen i bvi Hfi). lia.
Qed.

(** Regions 1 (replaced) and 2 of Scenario A. *)
Lemma rebuilt_regions_disjoint_witness :
  ∃ oi oj,
    rebuilt_table scenarioA_gltf scenarioA_blob scenarioA_replacements !! 1
      = Some (mkBufferView 0 (Some oi) (Some 3))
    ∧ rebuilt_table scenarioA_gltf scenarioA_blob scenarioA_replacements !! 2
      = Some (mkBufferView 0 (Some oj) (Some 5))
    ∧ (oi + 3 ≤ oj ∨ oj + 5 ≤ oi).
Proof.
  apply (rebuilt_regions_disjoint scenarioA_gltf scenarioA_blob
           scenarioA_replacements 1 2 (mkBufferView 0 (Some 16) (Some 7))
           (mkBufferView 0 (Some 32) (Some 5))); [done|done|done| |].
  - left. by exists [x0a; x0b; x0c].
  - right. vm_compute. lia.
Defined.

(** ** Further properties of [pad4] and of the rebuilder *)

(** X4. [pad4] appends fewer than four zero bytes and nothing else; the
    result's length is a multiple of 4; data whose length already is one is
    returned as it is; padding twice is padding once. *)
Theorem pad4_least_multiple (data : bytes) :
  (∃ k, k < 4 ∧ pad4 data = data ++ replicate k x00)
  ∧ length (pad4 data) mod 4 = 0
  ∧ (length data mod 4 = 0 → pad4 data = data)
  ∧ pad4 (pad4 data) = pad4 data.
Proof.
  assert (Hid : ∀ d : bytes, length d mod 4 = 0 → pad4 d = d).
  { intros d Hd. unfold pad4. rewrite Hd. simpl. apply app_nil_r. }
  split; [|split; [apply length_pad4_mod|split; [apply Hid|]]].
  - exists ((4 - length data mod 4) mod 4). split; [|done].
    apply Nat.mod_upper_bound. lia.
  - apply Hid, length_pad4_mod.
Qed.

(** X5. On a call that returns, a region that is replaced, or that lies
    within the original payload, reads back from the output: the bytes of the
    returned payload at the region's new offset, for its new length, are the
    replacement when there is one and the region's original bytes otherwise;
    the new range lies within the returned payload. *)
Theorem rebuilt_region_reads_back
    (gltf : GLTF2) (blob : bytes) (repl : gmap nat bytes)
    (i : nat) (bv : BufferView) :
  bufferViews gltf !! i = Some bv →
  buffers gltf ≠ [] →
  is_Some (repl !! i) ∨ bv_off bv + bv_len bv ≤ length blob →
  ∃ out o n,
    rebuilt_payload gltf blob repl = inr out
    ∧ rebuilt_table gltf blob repl !! i
      = Some (mkBufferView (buffer bv) (Some o) (Some n))
    ∧ o + n ≤ length out
    ∧ slice out o (o + n)
      = match repl !! i with
        | Some data => data
        | None => slice blob (bv_off bv) (bv_off bv + bv_len bv)
        end.
Proof.
  intros Hi Hbuf Hfit.
  assert (Hne : bufferViews gltf ≠ []) by (intros E; by rewrite E in Hi).
  destruct (rebuild_returns gltf blob repl Hne Hbuf) as [-> ->].
  pose proof (rebuild_order_elem _ _ (lookup_lt_Some _ _ _ Hi)) as Hin.
  apply list_elem_of_split in Hin as (pre & post & Hord).
  pose proof (rebuild_order_NoDup (bufferViews gltf)) as Hnd.
  rewrite Hord in *.
  destruct (rebuild_loop_visit blob repl pre i post (rebuild_start gltf) bv
              Hnd Hi) as [Htab [y Hout]].
  assert (Hn : region_len repl i bv = length (region_bytes blob repl i bv)).
  { unfold region_len, region_bytes. destruct (repl !! i) as [d|]; [done|].
    destruct Hfit as [[? [=]]|Hfit]. rewrite length_slice. lia. }
  eexists _, _, _. split; [done|]. split; [exact Htab|].
  rewrite Hout, Hn. set (x := new_blob _ ++ gap_before _ _ _).
  fold (region_bytes blob repl i bv). split.
  - rewrite !length_app. pose proof (length_pad4_ge (region_bytes blob repl i bv)).
    lia.
  - unfold pad4. rewrite <- (app_assoc _ _ y). apply slice_app_mid.
Qed.

(** Region 1 of Scenario A reads back as its replacement. *)
Lemma rebuilt_region_reads_back_witness :
  ∃ out o n,
    rebuilt_payload scenarioA_gltf scenarioA_blob scenarioA_replacements
      = inr out
    ∧ rebuilt_table scenarioA_gltf scenarioA_blob scenarioA_replacements !! 1
      = Some (mkBufferView 0 (Some o) (Some n))
    ∧ o + n ≤ length out
    ∧ slice out o (o + n) = [x0a; x0b; x0c].
Proof.
  apply (rebuilt_region_reads_back scenarioA_gltf scenarioA_blob
           scenarioA_replacements 1 (mkBufferView 0 (Some 16) (Some 7)));
    [done|done|]. left. by exists [x0a; x0b; x0c].
Defined.

(** The loop consults the replacement set only at the indices it visits. *)
Lemma rebuild_loop_repl_agree (blob : bytes) (repl repl' : gmap nat bytes)
    order st :
  (∀ i, i ∈ order → repl !! i = repl' !! i) →
  rebuild_loop blob repl order st = rebuild_loop blob repl' order st.
Proof.
  revert st. induction order as [|i order IH]; intros st Hag; [done|].
  rewrite !rebuild_loop_cons.
  assert (rebuild_step blob repl st i = rebuild_step blob repl' st i) as ->.
  { unfold rebuild_step. rewrite (Hag i) by by left. done. }
  apply IH. intros j Hj. apply Hag. by right.
Qed.

(** X7. Entries of the replacement set whose key is not the index of a
    region are ignored without an error: two replacement sets that agree on
    the indices of the region table give the same structure and the same
    result, exception or payload. *)
Theorem rebuild_ignores_replacements_without_region
    (gltf : GLTF2) (blob : bytes) (repl repl' : gmap nat bytes) :
  (∀ i, i < length (bufferViews gltf) → repl !! i = repl' !! i) →
  rebuild_blob_with_replacements gltf blob repl
  = rebuild_blob_with_replacements gltf blob repl'.
Proof.
  intros Hag. unfold rebuild_blob_with_replacements.
  rewrite (rebuild_loop_repl_agree blob repl repl'); [done|].
  intros i Hi. apply Hag.
  rewrite rebuild_order_perm in Hi. apply elem_of_seq in Hi. lia.
Qed.

(** Scenario A with a stray replacement for the non-existent region 7. *)
Lemma rebuild_ignores_replacements_without_region_witness :
  rebuild_blob_with_replacements scenarioA_gltf scenarioA_blob
    (<[7 := [xff]]> scenarioA_replacements)
  = rebuild_blob_with_replacements scenarioA_gltf scenarioA_blob
      scenarioA_replacements.
Proof.
  apply rebuild_ignores_replacements_without_region.
  intros i Hi. apply lookup_insert_ne. simpl in Hi. lia.
Defined.

(** ** Rebuilding without replacements *)

Section identity.
Variables (tbl : list BufferView) (blob : bytes).
Hypothesis Htiles : tiles_payload tbl blob.

(** [i] is written before [j] and ends where [j] starts, or earlier. *)
Definition ends_before (i j : nat) : Prop :=
  ∀ bvi bvj, tbl !! i = Some bvi → tbl !! j = Some bvj →
    bv_off bvi + bv_len bvi ≤ bv_off bvj.

Lemma rebuild_order_ends_before order :
  NoDup order →
  StronglySorted (λ a b, default 0 (tbl !! a ≫= byteOffset)
                         ≤ default 0 (tbl !! b ≫= byteOffset)) order →
  StronglySorted ends_before order.
Proof.
  destruct Htiles as [Hreg Hdis].
  induction order as [|i order IH]; intros Hnd Hs; [constructor|].
  apply NoDup_cons in Hnd as [Hni Hnd].
  apply StronglySorted_cons in Hs as [Hall Hs].
  constructor; [by apply IH|].
  apply Forall_forall. intros j Hj bvi bvj Hi Hjv.
  rewrite Forall_forall in Hall. specialize (Hall j Hj).
  rewrite Hi, Hjv in Hall. simpl in Hall. fold (bv_off bvi) (bv_off bvj) in Hall.
  assert (i ≠ j) as Hne by (by intros ->).
  destruct (Hdis i j bvi bvj Hne Hi Hjv) as [?|Hle]; [done|].
  destruct (Hreg j bvj Hjv) as (Hpos & _ & _). lia.
Qed.

Lemma take_slice (a c : nat) :
  a ≤ c → take a blob ++ slice blob a c = take c blob.
Proof.
  intros Hac. unfold slice. rewrite take_take_drop. f_equal. lia.
Qed.

Lemma rebuild_loop_identity order :
  NoDup order → StronglySorted ends_before order →
  ∀ st,
    (∀ j, j ∈ order → bvs st !! j = tbl !! j) →
    new_blob st = take (cursor st) blob →
    cursor st ≤ length blob →
    (∀ j bv, j ∈ order → tbl !! j = Some bv → cursor st ≤ bv_off bv) →
    let fin := rebuild_loop blob ∅ order st in
    new_blob fin = take (cursor fin) blob
    ∧ cursor fin ≤ length blob
    ∧ (∀ j bv, j ∈ order → tbl !! j = Some bv →
         bvs fin !! j = Some (mkBufferView (buffer bv) (Some (bv_off bv))
                                (Some (bv_len bv)))).
Proof.
  destruct Htiles as [Hreg _].
  induction order as [|i order IH]; intros Hnd Hs st Hag Hblob Hcur Hahead.
  { simpl. split; [done|]. split; [done|]. by intros j bv []%elem_of_nil. }
  apply NoDup_cons in Hnd as [Hni Hnd].
  apply StronglySorted_cons in Hs as [Hall Hs].
  rewrite Forall_forall in Hall.
  rewrite rebuild_loop_cons.
  destruct (tbl !! i) as [bv|] eqn:Hi.
  - destruct (Hreg i bv Hi) as (Hpos & Hmod & Hfit).
    assert (Hi' : bvs st !! i = Some bv) by (rewrite Hag; [done|by left]).
    rewrite (rebuild_step_eq _ _ _ _ _ Hi').
    assert (Hc : cursor st ≤ bv_off bv) by (apply (Hahead i); [by left|done]).
    assert (Hgap : new_blob st ++ gap_before blob (cursor st) (bv_off bv)
                   = take (bv_off bv) blob).
    { rewrite Hblob. unfold gap_before.
      destruct (Nat.ltb_spec (cursor st) (bv_off bv)).
      - apply take_slice. lia.
      - rewrite app_nil_r. f_equal. lia. }
    assert (Hpad : pad4 (region_bytes blob ∅ i bv)
                   = slice blob (bv_off bv) (bv_off bv + bv_len bv)).
    { unfold region_bytes. rewrite lookup_empty. unfold pad4.
      rewrite length_slice.
      replace ((bv_off bv + bv_len bv - bv_off bv) `min`
               (length blob - bv_off bv)) with (bv_len bv) by lia.
      rewrite Hmod. simpl. apply app_nil_r. }
    cbv zeta. rewrite Hgap, Hpad.
    rewrite take_slice by lia.
    rewrite length_take_le by lia.
    unfold region_len. rewrite lookup_empty.
    match goal with |- context [rebuild_loop blob ∅ order ?s] =>
      destruct (IH Hnd Hs s) as (B1 & B2 & B3) end; simpl.
    + intros j Hj. rewrite list_lookup_insert_ne by (by intros ->).
      apply Hag. by right.
    + done.
    + done.
    + intros j bvj Hj Hjv. apply (Hall j Hj bv bvj Hi Hjv).
    + split; [done|]. split; [done|].
      intros j bvj [->|Hj]%elem_of_cons Hjv.
      * rewrite rebuild_loop_bvs_notin by done. simpl.
        rewrite Hi in Hjv. inversion Hjv; subst bvj.
        apply list_lookup_insert_eq. by eapply lookup_lt_Some.
      * by apply B3.
  - rewrite rebuild_step_oob by (rewrite Hag; [done|by left]).
    destruct (IH Hnd Hs st) as (B1 & B2 & B3); try done.
    + intros j Hj. apply Hag. by right.
    + intros j bvj Hj. apply Hahead. by right.
    + split; [done|]. split; [done|].
      intros j bvj [->|Hj]%elem_of_cons Hjv; [congruence|by apply B3].
Qed.

End identity.

(** X6. When nothing is replaced and the region table tiles the payload
    (regions non-empty, lengths multiples of 4, within the payload, pairwise
    disjoint), a call that returns gives back the payload it was given, and
    every region keeps its offset and its length. *)
Theorem rebuild_without_replacements_is_identity
    (gltf : GLTF2) (blob : bytes) :
  bufferViews gltf ≠ [] → buffers gltf ≠ [] →
  tiles_payload (bufferViews gltf) blob →
  rebuilt_payload gltf blob ∅ = inr blob
  ∧ ∀ i bv, bufferViews gltf !! i = Some bv →
      rebuilt_table gltf blob ∅ !! i
      = Some (mkBufferView (buffer bv) (Some (bv_off bv)) (Some (bv_len bv))).
Proof.
  intros Hbv Hbuf Htiles.
  destruct (rebuild_returns gltf blob ∅ Hbv Hbuf) as [-> ->].
  pose proof (rebuild_order_NoDup (bufferViews gltf)) as Hnd.
  pose proof (rebuild_order_sorted (bufferViews gltf)) as Hs.
  apply Sorted_StronglySorted in Hs; [|intros a b c; lia].
  pose proof (rebuild_order_ends_before _ _ Htiles _ Hnd Hs) as Hch.
  destruct (rebuild_loop_identity _ _ Htiles _ Hnd Hch (rebuild_start gltf))
    as (B1 & B2 & B3); try done.
  { simpl. lia. }
  { simpl. lia. }
  split.
  - rewrite rebuild_finish_eq, B1.
    destruct (Nat.ltb_spec (cursor (rebuild_loop blob ∅
                (rebuild_order (bufferViews gltf)) (rebuild_start gltf)))
              (length blob)).
    + by rewrite take_drop.
    + rewrite app_nil_r. f_equal. apply take_ge. lia.
  - intros i bv Hi. apply B3; [|done].
    apply rebuild_order_elem. by eapply lookup_lt_Some.
Qed.

Lemma tiled_gltf_tiles : tiles_payload (bufferViews tiled_gltf) tiled_blob.
Proof.
  split.
  - intros [|[|i]] bv Hi; inversion Hi; subst; vm_compute; lia.
  - intros [|[|i]] [|[|j]] bvi bvj Hne Hi Hj; try done;
      inversion Hi; inversion Hj; subst; vm_compute; lia.
Defined.

(** The tiled two-region container: the second entry, written without an
    offset, is read as offset 0. *)
Lemma rebuild_without_replacements_is_identity_witness :
  rebuilt_payload tiled_gltf tiled_blob ∅ = inr tiled_blob
  ∧ rebuilt_table tiled_gltf tiled_blob ∅ !! 0
    = Some (mkBufferView 0 (Some 8) (Some 8))
  ∧ rebuilt_table tiled_gltf tiled_blob ∅ !! 1
    = Some (mkBufferView 0 (Some 0) (Some 4)).
Proof.
  destruct (rebuild_without_replacements_is_identity tiled_gltf tiled_blob)
    as [Hp Ht]; [done|done|exact tiled_gltf_tiles|].
  split; [exact Hp|]. split.
  - by apply (Ht 0 (mkBufferView 0 (Some 8) (Some 8))).
  - by apply (Ht 1 (mkBufferView 0 None (Some 4))).
Defined.

(** ** What the pipeline changes, and when it raises *)

Section pipeline_effects.
Context `{Externals}.
Variables (cfg : settings) (table : list BufferView) (blob : bytes)
          (normal : gset nat).

Lemma encode_step_length st k img st' :
  encode_step cfg table blob normal st k img = inr st' →
  length (imgs st') = length (imgs st)
  ∧ (∀ b, is_Some (replacements st !! b) → is_Some (replacements st' !! b)).
Proof.
  unfold encode_step.
  destruct (bufferView img) as [b|]; [|by intros [= <-]].
  destruct (table !! b) as [bv|]; [|done].
  destruct (image_open _); [|by intros [= <-]].
  destruct (select_policy _ _ _ _). intros [= <-]. simpl.
  split; [by rewrite length_insert|].
  intros b' Hb'. destruct (decide (b = b')) as [->|Hne].
  - by rewrite lookup_insert_eq.
  - by rewrite lookup_insert_ne.
Qed.

Lemma encode_step_reencoded st k img st' b :
  encode_step cfg table blob normal st k img = inr st' →
  reencoded table blob img → bufferView img = Some b →
  is_Some (replacements st' !! b)
  ∧ (k < length (imgs st) →
     imgs st' !! k = Some (set_mimeType img "image/webp")).
Proof.
  intros Hs (b' & bv & im & Hb' & Hbv & Him) Hb.
  rewrite Hb in Hb'. inversion Hb'; subst b'.
  unfold encode_step in Hs. rewrite Hb, Hbv in Hs.
  fold (bv_off bv) (bv_len bv) in Hs. fold (region_raw blob bv) in Hs.
  rewrite Him in Hs. destruct (select_policy _ _ _ _).
  inversion Hs; subst st'. simpl. split.
  - by rewrite lookup_insert_eq.
  - intros Hk. by apply list_lookup_insert_eq.
Qed.

(** What the loop has done for the images it re-encodes. *)
Lemma encode_loop_reencoded todo :
  NoDup (todo.*1) →
  ∀ st st',
    encode_loop cfg table blob normal todo st = inr st' →
    length (imgs st') = length (imgs st)
    ∧ (∀ b, is_Some (replacements st !! b) → is_Some (replacements st' !! b))
    ∧ (∀ k img b, (k, img) ∈ todo → reencoded table blob img →
         bufferView img = Some b →
         is_Some (replacements st' !! b)
         ∧ (k < length (imgs st) →
            imgs st' !! k = Some (set_mimeType img "image/webp"))).
Proof.
  induction todo as [|[k0 img0] todo IH]; intros Hnd st st'; simpl.
  { intros [= <-]. split; [done|]. split; [done|].
    by intros k img b []%elem_of_nil. }
  apply NoDup_cons in Hnd as [Hni Hnd].
  destruct (encode_step cfg table blob normal st k0 img0) as [e|st1] eqn:Es;
    [done|].
  intros Hl. destruct (encode_step_length _ _ _ _ Es) as [Hlen1 Hmono1].
  destruct (IH Hnd st1 st' Hl) as (Hlen & Hmono & Hre).
  destruct (encode_loop_inv _ _ _ _ _ _ _ Hl) as (_ & L2 & _).
  split; [congruence|]. split; [by eauto|].
  intros k img b [Heq|Hin]%elem_of_cons Hr Hb.
  - inversion Heq; subst k0 img0.
    destruct (encode_step_reencoded _ _ _ _ _ Es Hr Hb) as [Hkey Himg].
    split; [by apply Hmono|]. intros Hk. rewrite L2; [by apply Himg|].
    intros img' Hin'. destruct Hni.
    apply list_elem_of_fmap. by exists (k, img').
  - destruct (Hre k img b Hin Hr Hb) as [Hkey Himg].
    split; [done|]. intros Hk. apply Himg. lia.
Qed.

(** The only exception the loop raises is the index error, and it raises it
    as soon as an image names a region the table does not have. *)
Lemma encode_loop_index_error todo st :
  (∃ k img b, (k, img) ∈ todo ∧ bufferView img = Some b ∧ length table ≤ b) →
  encode_loop cfg table blob normal todo st = inl IndexError.
Proof.
  revert st. induction todo as [|[k0 img0] todo IH]; intros st (k & img & b & Hin & Hb & Hoob).
  { by apply elem_of_nil in Hin. }
  simpl.
  destruct (encode_step cfg table blob normal st k0 img0) as [e|st1] eqn:Es.
  - unfold encode_step in Es.
    destruct (bufferView img0) as [b0|]; [|done].
    destruct (table !! b0); [|by inversion Es].
    destruct (image_open _); [|done]. by destruct (select_policy _ _ _ _).
  - apply elem_of_cons in Hin as [Heq|Hin].
    + inversion Heq; subst k0 img0. unfold encode_step in Es.
      rewrite Hb in Es. by rewrite (proj2 (lookup_ge_None table b) Hoob) in Es.
    + apply IH. by exists k, img, b.
Qed.

End pipeline_effects.

Lemma rebuild_materials_textures gltf (blob : bytes) repl :
  materials (rebuild_blob_with_replacements gltf blob repl).1 = materials gltf
  ∧ textures (rebuild_blob_with_replacements gltf blob repl).1 = textures gltf.
Proof.
  unfold rebuild_blob_with_replacements.
  destruct (bufferViews gltf); [done|]. by destruct (buffers gltf).
Qed.

Lemma enumerate_fst {A} (l : list A) : (enumerate l).*1 = seq 0 (length l).
Proof. unfold enumerate. apply fst_zip. by rewrite length_seq. Qed.

Section pipeline_theorems.
Context `{Externals}.
Variables (cfg : settings) (gltf : GLTF2) (blob : bytes).

Lemma reencoded_dec img :
  reencoded (bufferViews gltf) blob img
  ∨ ¬ reencoded (bufferViews gltf) blob img.
Proof.
  unfold reencoded.
  destruct (bufferView img) as [b|] eqn:Hb;
    [|right; by intros (? & ? & ? & ? & _)].
  destruct (bufferViews gltf !! b) as [bv|] eqn:Hbv.
  - destruct (image_open (region_raw blob bv)) as [im|] eqn:Him.
    + left. by exists b, bv, im.
    + right. intros (b' & bv' & im & E1 & E2 & E3).
      inversion E1; subst b'. rewrite Hbv in E2. inversion E2; subst bv'.
      congruence.
  - right. intros (b' & bv' & im & E1 & E2 & _).
    inversion E1; subst b'. congruence.
Qed.

(** X8. On a structurally sound container the pipeline returns, and what it
    returns differs from what it was given only as follows. Materials and
    textures are the same, and there are as many images and regions as
    before. Each region keeps its [buffer] field. An image whose region
    decodes has its MIME type set to image/webp and is otherwise unchanged;
    every other image is unchanged. The keys of the replacement set are
    exactly the regions of the images whose bytes decode. *)
Theorem optimize_vrm_structure_edits_only_images :
  structurally_sound gltf →
  ∃ gltf' out st,
    optimize_vrm_structure cfg gltf blob = inr (gltf', out, st)
    ∧ materials gltf' = materials gltf
    ∧ textures gltf' = textures gltf
    ∧ length (images gltf') = length (images gltf)
    ∧ length (bufferViews gltf') = length (bufferViews gltf)
    ∧ (∀ i bv, bufferViews gltf !! i = Some bv →
         ∃ o n, bufferViews gltf' !! i
                = Some (mkBufferView (buffer bv) (Some o) (Some n)))
    ∧ (∀ k img, images gltf !! k = Some img →
         (reencoded (bufferViews gltf) blob img
          ∧ images gltf' !! k = Some (set_mimeType img "image/webp"))
         ∨ (¬ reencoded (bufferViews gltf) blob img
            ∧ images gltf' !! k = Some img))
    ∧ (∀ b, is_Some (replacements st !! b) ↔
         ∃ img, img ∈ images gltf ∧ bufferView img = Some b
                ∧ reencoded (bufferViews gltf) blob img).
Proof.
  intros Hsound.
  destruct (optimize_vrm_structure_returns cfg gltf blob Hsound)
    as (st & out & Hloop & Hout & Hrun).
  destruct Hsound as (Him & Hbuf & Hbv & Hreg).
  destruct (encode_loop_inv _ _ _ _ _ _ _ Hloop) as (L1 & L2 & _).
  destruct (encode_loop_reencoded cfg (bufferViews gltf) blob
              (get_normal_texture_image_indices gltf)
              (enumerate (images gltf))) with (st := encode_start gltf)
              (st' := st) as (Hlen & _ & Hre); [|done|].
  { rewrite enumerate_fst. apply NoDup_seq. }
  set (g1 := set_images gltf (imgs st)) in *.
  destruct (rebuild_materials_textures g1 blob (replacements st)) as [Hm Ht].
  eexists _, out, st. split; [exact Hrun|].
  split; [exact Hm|]. split; [exact Ht|].
  split; [by rewrite rebuild_images|]. split.
  { fold (rebuilt_table g1 blob (replacements st)).
    rewrite rebuild_table_any by done. by rewrite rebuild_loop_bvs_length. }
  split.
  { intros i bv Hi.
    destruct (rebuilt_table_entry g1 blob (replacements st) i bv Hi) as [o Ho].
    by exists o, (region_len (replacements st) i bv). }
  split.
  - intros k img Hk. rewrite rebuild_images. simpl.
    destruct (reencoded_dec img) as [Hr|Hr].
    + left. split; [done|].
      destruct Hr as (b & bv & im & Hb & Hr).
      destruct (Hre k img b) as [_ Himg].
      * by apply elem_of_enumerate.
      * by exists b, bv, im.
      * done.
      * apply Himg. simpl. by eapply lookup_lt_Some.
    + right. split; [done|]. rewrite L2; [done|].
      intros img' Hin. apply elem_of_enumerate in Hin. congruence.
  - intros b. split.
    + intros [d Hd]. destruct (L1 b d Hd) as [Hd0|(k & img & Hin & Hb & Hr)].
      * simpl in Hd0. by rewrite lookup_empty in Hd0.
      * exists img. split; [|done]. apply elem_of_enumerate in Hin.
        by eapply list_elem_of_lookup_2.
    + intros (img & Hin & Hb & Hr).
      apply list_elem_of_lookup in Hin as [k Hk].
      destruct (Hre k img b) as [Hkey _]; try done.
      by apply elem_of_enumerate.
Qed.

(** X9. The exceptions of the pipeline, in the order the code reaches them.
    With images declared: an image that names a region outside the table
    makes the pipeline raise the index error, whatever else is missing; when
    every named region exists, an empty region table raises the
    no-bufferViews error and, with regions present, a missing buffer
    descriptor raises the no-buffers error; and the file is not written in
    any of these cases. *)
Theorem optimize_vrm_structure_exceptions :
  images gltf ≠ [] →
  ((∃ img b, img ∈ images gltf ∧ bufferView img = Some b
             ∧ length (bufferViews gltf) ≤ b) →
     optimize_vrm_structure cfg gltf blob = inl IndexError)
  ∧ ((∀ img b, img ∈ images gltf → bufferView img = Some b →
        b < length (bufferViews gltf)) →
     (bufferViews gltf = [] →
        optimize_vrm_structure cfg gltf blob
        = inl (RuntimeError "No bufferViews found."))
     ∧ (bufferViews gltf ≠ [] → buffers gltf = [] →
          optimize_vrm_structure cfg gltf blob
          = inl (RuntimeError "No buffers found.")))
  ∧ (∀ e input_path output_path fs,
       fs !! input_path = Some (mkContainer gltf blob) →
       optimize_vrm_structure cfg gltf blob = inl e →
       optimize_vrm_file input_path output_path cfg fs = inl e).
Proof.
  intros Him. split; [|split].
  - intros (img & b & Hin & Hb & Hoob).
    apply list_elem_of_lookup in Hin as [k Hk].
    unfold optimize_vrm_structure.
    destruct (images gltf) as [|i0 ims] eqn:E; [done|]. rewrite <- E.
    rewrite encode_loop_index_error; [done|].
    exists k, img, b. split; [|done]. apply elem_of_enumerate. by rewrite E.
  - intros Hreg.
    destruct (encode_loop_returns cfg (bufferViews gltf) blob
                (get_normal_texture_image_indices gltf)
                (enumerate (images gltf)) (encode_start gltf)) as [st Hst].
    { intros k img b Hin. apply Hreg. apply elem_of_enumerate in Hin.
      by eapply list_elem_of_lookup_2. }
    unfold encode_start in Hst. split.
    + intros Hbv. unfold optimize_vrm_structure.
      destruct (images gltf) as [|i0 ims] eqn:E; [done|]. rewrite Hst.
      unfold rebuild_blob_with_replacements. simpl. by rewrite Hbv.
    + intros Hbv Hbuf. unfold optimize_vrm_structure.
      destruct (images gltf) as [|i0 ims] eqn:E; [done|]. rewrite Hst.
      unfold rebuild_blob_with_replacements. simpl.
      destruct (bufferViews gltf); [done|]. by rewrite Hbuf.
  - intros e input_path output_path fs Hfs He. unfold optimize_vrm_file.
    rewrite Hfs. simpl. by rewrite He.
Qed.

End pipeline_theorems.

(** The demonstration container: images 0, 2 and 3 become image/webp, the
    undecodable image 1 and the region-less image 4 stay as they are, and the
    replacement set has a key for region 0 and none for region 1. *)
Lemma optimize_vrm_structure_edits_only_images_witness :
  ∃ gltf' out st,
    @optimize_vrm_structure toy_externals default_settings demo_gltf demo_blob
      = inr (gltf', out, st)
    ∧ materials gltf' = materials demo_gltf
    ∧ textures gltf' = textures demo_gltf
    ∧ length (images gltf') = 5
    ∧ length (bufferViews gltf') = 4
    ∧ images gltf' !! 0
      = Some (mkImage (Some "Body") (Some "image/webp") (Some 0))
    ∧ images gltf' !! 1
      = Some (mkImage (Some "Broken") (Some "image/png") (Some 1))
    ∧ is_Some (replacements st !! 0)
    ∧ ¬ is_Some (replacements st !! 1).
Proof.
  destruct (@optimize_vrm_structure_edits_only_images toy_externals
              default_settings demo_gltf demo_blob demo_gltf_sound)
    as (gltf' & out & st & Hrun & Hm & Ht & Hli & Hlb & _ & Himg & Hkeys).
  exists gltf', out, st.
  split; [exact Hrun|]. split; [exact Hm|]. split; [exact Ht|].
  split; [exact Hli|]. split; [exact Hlb|].
  vm_compute in Hrun. inversion Hrun; subst. vm_compute.
  repeat split; eauto. intros [? [=]].
Defined.

(** An image naming region 9 of four; a region-less image with no region
    table; the demonstration images without a buffer descriptor. *)
Lemma optimize_vrm_structure_exceptions_witness :
  @optimize_vrm_structure toy_externals default_settings dangling_region_gltf
     demo_blob = inl IndexError
  ∧ @optimize_vrm_structure toy_externals default_settings regionless_gltf
       demo_blob = inl (RuntimeError "No bufferViews found.")
  ∧ @optimize_vrm_structure toy_externals default_settings bufferless_gltf
       demo_blob = inl (RuntimeError "No buffers found.").
Proof.
  split; [|split].
  - apply (@optimize_vrm_structure_exceptions toy_externals default_settings
             dangling_region_gltf demo_blob); [done|].
    exists (mkImage (Some "Lost") (Some "image/png") (Some 9)), 9.
    split; [apply list_elem_of_lookup_2 with 1; reflexivity|].
    split; [reflexivity|]. simpl. lia.
  - apply (@optimize_vrm_structure_exceptions toy_externals default_settings
             regionless_gltf demo_blob); [done| |reflexivity].
    intros img b [->|[]%elem_of_nil]%elem_of_cons. discriminate.
  - apply (@optimize_vrm_structure_exceptions toy_externals default_settings
             bufferless_gltf demo_blob); [done| |done|reflexivity].
    intros img b Hin Hb.
    repeat (apply elem_of_cons in Hin as [->|Hin]; [inversion Hb; simpl; lia|]).
    by apply elem_of_nil in Hin.
Defined.

(** ** What the search leaves on disk *)

Section on_disk.
Context `{Externals}.
Variables (input_path output_path : string) (target_bytes max_attempts : Z).

Lemma optimize_vrm_file_writes cfg fs fs' :
  optimize_vrm_file input_path output_path cfg fs = inr fs' →
  ∃ g b, fs' = <[output_path := mkContainer g b]> fs.
Proof.
  unfold optimize_vrm_file. destruct (fs !! input_path) as [c|]; [|done].
  destruct (optimize_vrm_structure _ _ _) as [e|[[g b] st]]; [done|].
  intros [= <-]. eauto.
Qed.

Lemma search_loop_disk cands :
  ∀ attempts best log fs,
    let r := search_loop input_path output_path target_bytes max_attempts
               cands attempts best log fs in
    ∃ log2,
      attempt_log r = log ++ log2
      ∧ (log2 = [] → final_fs r = fs)
      ∧ (∀ l c s, log2 = l ++ [(c, s)] →
           getsize (final_fs r) output_path = inr s)
      ∧ (∀ p, p ≠ output_path → final_fs r !! p = fs !! p).
Proof.
  induction cands as [|cfg rest IH]; intros attempts best log fs; simpl.
  { exists []. rewrite app_nil_r. repeat split; try done.
    intros l c s Hl. by destruct l. }
  assert (Hstay : ∀ o, ∃ log2 : list (settings * Z),
            attempt_log (mkSearchResult fs log o) = log ++ log2
            ∧ (log2 = [] → final_fs (mkSearchResult fs log o) = fs)
            ∧ (∀ l c s, log2 = l ++ [(c, s)] →
                 getsize (final_fs (mkSearchResult fs log o)) output_path
                 = inr s)
            ∧ (∀ p, p ≠ output_path →
                 final_fs (mkSearchResult fs log o) !! p = fs !! p)).
  { intros o. exists []. rewrite app_nil_r. repeat split; try done.
    intros l c s Hl. by destruct l. }
  destruct (max_attempts <? attempts + 1)%Z; [apply Hstay|].
  destruct (optimize_vrm_file input_path output_path cfg fs) as [e|fs'] eqn:Ef;
    [apply Hstay|].
  destruct (optimize_vrm_file_writes _ _ _ Ef) as (g & b & ->).
  set (fs' := <[output_path := mkContainer g b]> fs).
  assert (Hsize : getsize fs' output_path = inr (glb_size g b)).
  { unfold getsize, fs'. by rewrite lookup_insert_eq. }
  rewrite Hsize.
  assert (Hframe : ∀ p, p ≠ output_path → fs' !! p = fs !! p).
  { intros p Hp. unfold fs'. by rewrite lookup_insert_ne. }
  destruct (glb_size g b <=? target_bytes)%Z; simpl.
  - exists [(cfg, glb_size g b)]. split; [done|]. split; [done|].
    split; [|done]. intros l c s Hl. destruct l as [|x [|y l]]; [|done|done].
    by inversion Hl; subst.
  - destruct (IH (attempts + 1)%Z (update_best best (glb_size g b) cfg)
                (log ++ [(cfg, glb_size g b)]) fs')
      as (log2 & Hl2 & Hnil & Hlast & Hfr).
    exists ((cfg, glb_size g b) :: log2).
    split; [by rewrite Hl2, <- app_assoc|]. split; [done|]. split.
    + intros l c s Hl. destruct l as [|x l]; simpl in Hl.
      * inversion Hl; subst. by rewrite Hnil.
      * inversion Hl; subst. by eapply Hlast.
    + intros p Hp. rewrite Hfr by done. by apply Hframe.
Qed.

(** X10. The search writes no file but the one at the output path: every
    other path holds after the search what it held before, whatever the
    outcome. *)
Theorem search_writes_only_output_path
    (start : settings) (fs : gmap string container) (p : string) :
  p ≠ output_path →
  final_fs (optimize_vrm_to_target input_path output_path target_bytes start
              max_attempts fs) !! p
  = fs !! p.
Proof.
  intros Hp.
  destruct (search_loop_disk (_candidate_settings_for_target start) 0%Z None
              [] fs) as (log2 & _ & _ & _ & Hfr).
  by apply Hfr.
Qed.

(** X11. The file at the output path after the search is the one written by
    the last attempt that completed, not by the best one. If no attempt
    completed, the file system is untouched. Otherwise the size of the file
    at the output path is the size logged for the last attempt: after a
    reported hit it is the reported size and at most the target; after a
    reported miss it is above the target and at least the reported best
    size, which an earlier attempt may have measured. *)
Theorem search_leaves_last_attempt_on_disk
    (start : settings) (fs : gmap string container) :
  let r := optimize_vrm_to_target input_path output_path target_bytes start
             max_attempts fs in
  (attempt_log r = [] → final_fs r = fs)
  ∧ (∀ l c s, attempt_log r = l ++ [(c, s)] →
       getsize (final_fs r) output_path = inr s)
  ∧ (∀ k s, outcome r = inr (HitTarget k s) →
       getsize (final_fs r) output_path = inr s ∧ (s ≤ target_bytes)%Z)
  ∧ (∀ k best_size best_cfg,
       outcome r = inr (CouldNotReach k best_size best_cfg) →
       ∃ s, getsize (final_fs r) output_path = inr s
            ∧ (best_size ≤ s)%Z ∧ (target_bytes < s)%Z).
Proof.
  intros r.
  destruct (search_loop_disk (_candidate_settings_for_target start) 0%Z None
              [] fs) as (log2 & Hl2 & Hnil & Hlast & _).
  fold (optimize_vrm_to_target input_path output_path target_bytes start
          max_attempts fs) in Hl2, Hnil, Hlast. fold r in Hl2, Hnil, Hlast.
  simpl in Hl2. subst log2.
  destruct (search_loop_spec input_path output_path target_bytes max_attempts
              (_candidate_settings_for_target start) [] 0%Z None [] fs)
    as (_ & _ & Hpost); try done.
  { by intros c s []%elem_of_nil. }
  { simpl. lia. }
  fold (optimize_vrm_to_target input_path output_path target_bytes start
          max_attempts fs) in Hpost. fold r in Hpost. simpl in Hpost.
  split; [done|]. split; [done|]. split.
  - intros k s Ho. rewrite Ho in Hpost. simpl in Hpost.
    destruct Hpost as (l & c & Hlog & Hle & _). split; [|done]. by eapply Hlast.
  - intros k bs bc Ho. rewrite Ho in Hpost. simpl in Hpost.
    destruct Hpost as (Hmiss & Hin & Hmin & _).
    destruct (attempt_log r) as [|x l0] eqn:El using rev_ind.
    { by apply elem_of_nil in Hin. }
    destruct x as [c s]. exists s. split; [by eapply Hlast|].
    split; [apply (Hmin c)|apply (Hmiss c)]; apply elem_of_app; right; by left.
Qed.

End on_disk.

(** The search on the single-image container with target 0 and a budget of
    five attempts: the best size, 4, was measured by the fourth attempt, and
    the file left at the output path is the fifth attempt's, of size 8. *)
Lemma search_leaves_last_attempt_on_disk_witness :
  let r := @optimize_vrm_to_target toy_externals "avatar.vrm" "out.vrm" 0
             default_settings 5 single_fs in
  outcome r = inr (CouldNotReach 6 4 (candidate default_settings 512 45))
  ∧ ∃ s, @getsize toy_externals (final_fs r) "out.vrm" = inr s
         ∧ (4 ≤ s)%Z ∧ (0 < s)%Z ∧ s = 8%Z.
Proof.
  intros r.
  assert (E : outcome r
              = inr (CouldNotReach 6 4 (candidate default_settings 512 45)))
    by (vm_compute; reflexivity).
  split; [exact E|].
  destruct (@search_leaves_last_attempt_on_disk toy_externals "avatar.vrm"
              "out.vrm" 0 5 default_settings single_fs) as (_ & _ & _ & Hmiss).
  destruct (Hmiss _ _ _ E) as (s & Hs & Hb & Ht).
  exists s. split; [exact Hs|]. split; [exact Hb|]. split; [exact Ht|].
  fold r in Hs. vm_compute in Hs. by inversion Hs.
Defined.

Lemma search_writes_only_output_path_witness :
  final_fs (@optimize_vrm_to_target toy_externals "avatar.vrm" "out.vrm" 7
              default_settings 12 single_fs) !! "avatar.vrm"
  = single_fs !! "avatar.vrm".
Proof.
  by apply (@search_writes_only_output_path toy_externals "avatar.vrm"
              "out.vrm" 7 12 default_settings single_fs "avatar.vrm").
Defined.

(** ** The candidate sequence *)

Lemma dedup_first_descending l :
  ∀ seen,
    StronglySorted (λ a b, (b ≤ a)%Z) l →
    (∀ y x, y ∈ seen → x ∈ l → (x ≤ y)%Z) →
    StronglySorted (λ a b, (b < a)%Z) (dedup_first seen l)
    ∧ ∀ x, x ∈ dedup_first seen l → x ∉ seen.
Proof.
  induction l as [|x l IH]; intros seen Hs Hseen; simpl.
  { split; [constructor|]. by intros x []%elem_of_nil. }
  apply StronglySorted_cons in Hs as [Hall Hs]. rewrite Forall_forall in Hall.
  destruct (decide (x ∈ seen)) as [Hx|Hx].
  - apply IH; [done|]. intros y z Hy Hz. apply (Hseen y z Hy). by right.
  - destruct (IH ({[ x ]} ∪ seen) Hs) as [Hsorted Hfresh].
    { intros y z [->%elem_of_singleton|Hy]%elem_of_union Hz; [by apply Hall|].
      apply (Hseen y z Hy). by right. }
    split.
    + constructor; [done|]. apply Forall_forall. intros z Hz.
      pose proof (Hfresh z Hz) as Hnz.
      apply dedup_first_subset in Hz. specialize (Hall z Hz).
      assert (z ≠ x); [|lia].
      intros ->. apply Hnz, elem_of_union. left. by apply elem_of_singleton.
    + intros z [->|Hz]%elem_of_cons; [done|].
      intros Hzs. apply (Hfresh z Hz), elem_of_union. by right.
Qed.

Local Ltac sorted_cases :=
  rewrite !filter_cons, filter_nil; repeat case_decide;
  repeat first [ apply SSorted_nil | apply SSorted_cons
               | by apply Forall_nil | apply Forall_cons; split ];
  lia.

Lemma size_steps_descending start :
  StronglySorted (λ a b, (b < a)%Z) (size_steps start).
Proof.
  apply dedup_first_descending; [|by intros y x []%elem_of_empty].
  sorted_cases.
Qed.

Lemma quality_steps_descending start :
  StronglySorted (λ a b, (b < a)%Z) (quality_steps start).
Proof.
  apply dedup_first_descending; [|by intros y x []%elem_of_empty].
  sorted_cases.
Qed.

Lemma length_dedup_first seen l : length (dedup_first seen l) ≤ length l.
Proof.
  revert seen. induction l as [|x l IH]; intros seen; simpl; [done|].
  destruct (decide (x ∈ seen)); simpl; [etrans; [apply IH|lia]|].
  specialize (IH ({[ x ]} ∪ seen)). lia.
Qed.

Lemma candidates_of_pairs start ss qs :
  (ss ≫= λ s, qs ≫= λ q, [candidate start s q])
  = ss ≫= λ s, candidate start s <$> qs.
Proof.
  assert (Hq : ∀ s, (qs ≫= λ q, [candidate start s q])
                    = candidate start s <$> qs).
  { intros s. induction qs as [|q qs IH]; [done|].
    by rewrite bind_cons, fmap_cons, IH. }
  induction ss as [|s ss IH]; [done|]. by rewrite !bind_cons, IH, Hq.
Qed.

Lemma candidates_tried_before start ss qs :
  StronglySorted (λ a b, (b < a)%Z) ss →
  StronglySorted (λ a b, (b < a)%Z) qs →
  StronglySorted tried_before (ss ≫= λ s, candidate start s <$> qs).
Proof.
  intros Hss Hqs. induction ss as [|s ss IH]; [constructor|].
  apply StronglySorted_cons in Hss as [Hall Hss]. rewrite Forall_forall in Hall.
  rewrite bind_cons. apply StronglySorted_app. split; [|split; [|by apply IH]].
  - intros a b [q [-> _]]%list_elem_of_fmap (s' & Hb & Hs')%list_elem_of_bind.
    apply list_elem_of_fmap in Hb as [q' [-> _]]. left. simpl. by apply Hall.
  - clear -Hqs. induction qs as [|q qs IH]; [constructor|].
    apply StronglySorted_cons in Hqs as [Hall Hqs].
    rewrite Forall_forall in Hall. simpl. constructor; [by apply IH|].
    apply Forall_forall. intros b [q' [-> Hq']]%list_elem_of_fmap.
    right. simpl. split; [done|]. by apply Hall.
Qed.

Lemma length_candidates start (ss qs : list Z) :
  length (ss ≫= λ s, candidate start s <$> qs) = length ss * length qs.
Proof.
  induction ss as [|s ss IH]; [done|].
  rewrite bind_cons, length_app, length_fmap, IH. simpl. lia.
Qed.

(** X13. The candidates come in strictly descending order, first by main
    resolution and then by main quality, so no pair is tried twice; there are
    at most thirty of them. *)
Theorem candidates_strictly_descend
    (start : settings) (i j : nat) (a b : settings) :
  i < j →
  _candidate_settings_for_target start !! i = Some a →
  _candidate_settings_for_target start !! j = Some b →
  tried_before a b
  ∧ a ≠ b
  ∧ length (_candidate_settings_for_target start) ≤ 30.
Proof.
  intros Hij Ha Hb. unfold _candidate_settings_for_target in *.
  rewrite candidates_of_pairs in *.
  pose proof (candidates_tried_before start _ _
                (size_steps_descending (max_size start))
                (quality_steps_descending (webp_quality start))) as Hs.
  set (l := _ ≫= _) in *.
  assert (Hab : tried_before a b).
  { rewrite <- (take_drop j l) in Hs.
    apply (StronglySorted_app_1_elem_of _ _ _ _ _ Hs).
    - apply elem_of_take. by exists i.
    - apply list_elem_of_lookup. exists 0. rewrite lookup_drop.
      by rewrite Nat.add_0_r. }
  split; [done|]. split.
  - intros ->. unfold tried_before in Hab. lia.
  - unfold l. rewrite length_candidates.
    assert (length (size_steps (max_size start)) ≤ 5).
    { unfold size_steps. etrans; [apply length_dedup_first|].
      etrans; [apply length_filter|]. done. }
    assert (length (quality_steps (webp_quality start)) ≤ 6).
    { unfold quality_steps. etrans; [apply length_dedup_first|].
      etrans; [apply length_filter|]. done. }
    nia.
Qed.

(** The fourth and fifth default candidates: 512 at quality 45, then 448 at
    quality 60. *)
Lemma candidates_strictly_descend_witness :
  tried_before (candidate default_settings 512 45)
    (candidate default_settings 448 60)
  ∧ candidate default_settings 512 45 ≠ candidate default_settings 448 60
  ∧ length (_candidate_settings_for_target default_settings) ≤ 30.
Proof.
  by apply (candidates_strictly_descend default_settings 3 4);
    [lia|reflexivity|reflexivity].
Defined.

Lemma size_steps_head start :
  (128 ≤ start)%Z → ∃ rest, size_steps start = start :: rest.
Proof.
  intros Hs. unfold size_steps. rewrite filter_cons.
  destruct (decide _) as [_|Hn]; [|lia]. simpl.
  destruct (decide (start ∈ (∅ : gset Z))) as [[]%elem_of_empty|_]. eauto.
Qed.

Lemma quality_steps_head start :
  (10 ≤ start)%Z → ∃ rest, quality_steps start = start :: rest.
Proof.
  intros Hs. unfold quality_steps. rewrite filter_cons.
  destruct (decide _) as [_|Hn]; [|lia]. simpl.
  destruct (decide (start ∈ (∅ : gset Z))) as [[]%elem_of_empty|_]. eauto.
Qed.

Section no_candidates.
Context `{Externals}.

(** X12. No candidate is generated exactly when the baseline resolution is
    below 128 or the baseline quality is below 10; the search then makes no
    attempt, reports nothing and leaves the file system as it was. Otherwise
    the first candidate is the baseline pair itself, with the thumbnail and
    normal-map settings derived from it. *)
Theorem no_candidates_below_floors (start : settings) :
  (_candidate_settings_for_target start = [] ↔
     (max_size start < 128)%Z ∨ (webp_quality start < 10)%Z)
  ∧ ((max_size start < 128)%Z ∨ (webp_quality start < 10)%Z →
     ∀ input_path output_path target_bytes max_attempts fs,
       optimize_vrm_to_target input_path output_path target_bytes start
         max_attempts fs
       = mkSearchResult fs [] (inr NoReport))
  ∧ ((128 ≤ max_size start)%Z → (10 ≤ webp_quality start)%Z →
     head (_candidate_settings_for_target start)
     = Some (candidate start (max_size start) (webp_quality start))).
Proof.
  assert (Hempty : (max_size start < 128)%Z ∨ (webp_quality start < 10)%Z →
            _candidate_settings_for_target start = []).
  { intros Hlow.
    destruct (_candidate_settings_for_target start) as [|c l] eqn:E; [done|].
    assert (Hc : c ∈ _candidate_settings_for_target start)
      by (rewrite E; by left).
    apply elem_of_candidates in Hc as (s & q & Hs & Hq & _).
    apply elem_of_size_steps in Hs as [Hs _].
    apply elem_of_quality_steps in Hq as [Hq _]. lia. }
  assert (Hhead : (128 ≤ max_size start)%Z → (10 ≤ webp_quality start)%Z →
            head (_candidate_settings_for_target start)
            = Some (candidate start (max_size start) (webp_quality start))).
  { intros Hs Hq. unfold _candidate_settings_for_target.
    destruct (size_steps_head _ Hs) as [ss ->].
    destruct (quality_steps_head _ Hq) as [qs ->].
    by rewrite !bind_cons. }
  split; [split; [|done]|split; [|done]].
  - intros E.
    destruct (decide (max_size start < 128)%Z) as [|Hs]; [by left|].
    destruct (decide (webp_quality start < 10)%Z) as [|Hq]; [by right|].
    rewrite E in Hhead. discriminate Hhead; lia.
  - intros Hlow input_path output_path target_bytes max_attempts fs.
    unfold optimize_vrm_to_target. by rewrite (Hempty Hlow).
Qed.

End no_candidates.

(** A baseline resolution of 100: nothing is tried; the defaults: the first
    candidate is 512 at quality 60. *)
Lemma no_candidates_below_floors_witness :
  @optimize_vrm_to_target toy_externals "avatar.vrm" "out.vrm" 7
     (mkSettings 100 60 512 45 512 70) 12 single_fs
  = mkSearchResult single_fs [] (inr NoReport)
  ∧ head (_candidate_settings_for_target default_settings)
    = Some (mkSettings 512 60 512 45 512 65).
Proof.
  split.
  - apply (@no_candidates_below_floors toy_externals
             (mkSettings 100 60 512 45 512 70)). left. simpl. lia.
  - apply (@no_candidates_below_floors toy_externals default_settings);
      simpl; lia.
Defined.

(** ** The batch loop of [main] *)

Section batch.
Context `{Externals} `{PathOps}.
Variable args : main_args.

Lemma main_loop_app inputs1 inputs2 fs :
  main_loop args (inputs1 ++ inputs2) fs =
  match main_loop args inputs1 fs with
  | (fs1, inl e) => (fs1, inl e)
  | (fs1, inr _) => main_loop args inputs2 fs1
  end.
Proof.
  revert fs. induction inputs1 as [|raw rest IH]; intros fs; simpl; [done|].
  destruct (fs !! resolve raw); [|done].
  destruct (negb _); [done|].
  destruct (arg_target args) as [t|].
  - destruct (outcome _); [done|]. apply IH.
  - destruct (optimize_vrm_file _ _ _ _); [done|]. apply IH.
Qed.

(** X14. [main] stops at the first input that fails and does not undo what
    it did before: when the inputs before [raw] were processed without an
    exception, leaving the file system [fs1], and [raw] then fails, the whole
    batch ends with that exception, the inputs after [raw] are not looked at,
    and the file system is the one [raw]'s failure left. In particular an
    input that does not exist ends the batch with the not-found exit on
    [fs1], and one that exists without the .vrm suffix (in any letter case)
    with the not-a-vrm exit on [fs1]. *)
Theorem main_stops_at_first_failure
    (before after : list string) (raw : string)
    (fs fs1 : gmap string container) (z : Z) :
  main_loop args before fs = (fs1, inr z) →
  (∀ fs2 e, main_loop args [raw] fs1 = (fs2, inl e) →
     main_loop args (before ++ raw :: after) fs = (fs2, inl e))
  ∧ (fs1 !! resolve raw = None →
     main_loop args (before ++ raw :: after) fs
     = (fs1, inl (SystemExit ("Input not found: " +:+ resolve raw))))
  ∧ (is_Some (fs1 !! resolve raw) →
     lower (path_suffix (resolve raw)) ≠ ".vrm"%string →
     main_loop args (before ++ raw :: after) fs
     = (fs1, inl (SystemExit ("Not a .vrm file: " +:+ resolve raw)))).
Proof.
  intros Hbefore.
  assert (Hstep : ∀ fs2 e, main_loop args [raw] fs1 = (fs2, inl e) →
            main_loop args (before ++ raw :: after) fs = (fs2, inl e)).
  { intros fs2 e Hraw. rewrite main_loop_app, Hbefore.
    change (raw :: after) with ([raw] ++ after).
    by rewrite main_loop_app, Hraw. }
  split; [done|]. split.
  - intros Hnone. apply Hstep. simpl. by rewrite Hnone.
  - intros [c Hc] Hsuffix. apply Hstep. simpl. rewrite Hc.
    destruct (String.eqb_spec (lower (path_suffix (resolve raw))) ".vrm");
      [done|]. done.
Qed.

End batch.

(** A batch of three inputs whose second does not exist: the first is
    written to its suffixed output, then the batch ends; the third is never
    reached. *)
Lemma main_stops_at_first_failure_witness :
  ∃ fs1,
    @main_loop toy_externals toy_paths batch_args ["avatar.vrm"] single_fs
      = (fs1, inr 0%Z)
    ∧ is_Some (fs1 !! "avatar_optimized_5mb.vrm")
    ∧ @main toy_externals toy_paths batch_args single_fs
      = (fs1, inl (SystemExit "Input not found: missing.vrm")).
Proof.
  eexists. split; [vm_compute; reflexivity|]. split; [by eexists|].
  apply (@main_stops_at_first_failure toy_externals toy_paths batch_args
           ["avatar.vrm"] ["avatar.vrm"] "missing.vrm" single_fs _ 0%Z);
    [vm_compute; reflexivity|]. vm_compute. reflexivity.
Defined.

(** ** What is stored for a re-encoded image *)

Lemma enumerate_split {A} (l : list A) k x :
  l !! k = Some x →
  ∃ pre post, enumerate l = pre ++ (k, x) :: post
    ∧ ∀ k' x', (k', x') ∈ post → k < k' ∧ l !! k' = Some x'.
Proof.
  intros Hk. pose proof (proj2 (elem_of_enumerate l k x) Hk) as Hin.
  apply list_elem_of_split in Hin as (pre & post & E).
  exists pre, post. split; [done|]. intros k' x' Hin'.
  assert (Hl : l !! k' = Some x').
  { apply elem_of_enumerate. rewrite E. apply elem_of_app. right. by right. }
  split; [|done].
  pose proof (enumerate_fst l) as Hf. rewrite E in Hf.
  rewrite fmap_app, fmap_cons in Hf. simpl in Hf.
  assert (Hlen : length (pre.*1) = k).
  { assert (Hs : seq 0 (length l) !! length (pre.*1) = Some k).
    { rewrite <- Hf. by rewrite list_lookup_middle. }
    apply lookup_seq in Hs as [-> _]. done. }
  apply list_elem_of_lookup in Hin' as [i Hi].
  assert (Hs : seq 0 (length l) !! (length (pre.*1) + S i) = Some k').
  { rewrite <- Hf. rewrite lookup_app_r by lia.
    replace (length (pre.*1) + S i - length (pre.*1)) with (S i) by lia.
    simpl. by rewrite list_lookup_fmap, Hi. }
  apply lookup_seq in Hs as [-> _]. lia.
Qed.

Section stored_encoding.
Context `{Externals}.
Variables (cfg : settings) (table : list BufferView) (blob : bytes)
          (normal : gset nat).

Lemma encode_step_other_key st k img st' b :
  encode_step cfg table blob normal st k img = inr st' →
  bufferView img ≠ Some b →
  replacements st' !! b = replacements st !! b.
Proof.
  unfold encode_step. destruct (bufferView img) as [b'|]; [|by intros [= <-]].
  destruct (table !! b'); [|done].
  destruct (image_open _); [|by intros [= <-]].
  destruct (select_policy _ _ _ _). intros [= <-] Hne. simpl.
  apply lookup_insert_ne. congruence.
Qed.

Lemma encode_loop_other_key todo st st' b :
  encode_loop cfg table blob normal todo st = inr st' →
  (∀ k img, (k, img) ∈ todo → bufferView img ≠ Some b) →
  replacements st' !! b = replacements st !! b.
Proof.
  revert st. induction todo as [|[k img] todo IH]; intros st; simpl.
  { by intros [= <-]. }
  destruct (encode_step cfg table blob normal st k img) as [e|st1] eqn:Es;
    [done|].
  intros Hl Hne. rewrite (IH st1 Hl).
  - apply (encode_step_other_key _ _ _ _ _ Es). apply (Hne k). by left.
  - intros k' img' Hin. apply (Hne k'). by right.
Qed.

(** The replacement left for a region is the one made for the last image
    that refers to it. *)
Lemma encode_loop_last_writer pre k img post st st' b bv im :
  encode_loop cfg table blob normal (pre ++ (k, img) :: post) st = inr st' →
  bufferView img = Some b → table !! b = Some bv →
  image_open (region_raw blob bv) = Some im →
  (∀ k' img', (k', img') ∈ post → bufferView img' ≠ Some b) →
  replacements st' !! b
  = Some (save_webp im (select_policy cfg normal k img).1
            (select_policy cfg normal k img).2).
Proof.
  intros Hl Hb Hbv Him Hpost. rewrite encode_loop_app in Hl.
  destruct (encode_loop cfg table blob normal pre st) as [e|st1]; [done|].
  simpl in Hl.
  destruct (encode_step cfg table blob normal st1 k img) as [e|st2] eqn:Es;
    [done|].
  rewrite (encode_loop_other_key _ _ _ _ Hl Hpost).
  unfold encode_step in Es. rewrite Hb, Hbv in Es.
  fold (bv_off bv) (bv_len bv) in Es. fold (region_raw blob bv) in Es.
  rewrite Him in Es. destruct (select_policy cfg normal k img).
  inversion Es; subst st2. simpl. apply lookup_insert_eq.
Qed.

End stored_encoding.

Section stored_encoding_theorem.
Context `{Externals}.

(** X15. On a structurally sound container, let image [k] refer to a region
    whose bytes decode, and let no later image refer to the same region.
    Then the pipeline returns, and in its output the region has the length of
    the encoder's result for the decoded image under the limit and quality of
    the image's class, holds exactly that result at its new offset, and the
    image's MIME type is image/webp. When several images share a region, it
    is the last of them whose encoding is stored. *)
Theorem reencoded_region_holds_class_encoding
    (cfg : settings) (gltf : GLTF2) (blob : bytes)
    (k : nat) (img : GLTFImage) (b : nat) (bv : BufferView) (im : image) :
  structurally_sound gltf →
  images gltf !! k = Some img →
  bufferView img = Some b →
  bufferViews gltf !! b = Some bv →
  image_open (region_raw blob bv) = Some im →
  (∀ k' img', k < k' → images gltf !! k' = Some img' →
     bufferView img' ≠ Some b) →
  let policy := policy_of cfg (image_class_of gltf k img) in
  let data := save_webp im policy.1 policy.2 in
  ∃ gltf' out st o,
    optimize_vrm_structure cfg gltf blob = inr (gltf', out, st)
    ∧ replacements st !! b = Some data
    ∧ bufferViews gltf' !! b
      = Some (mkBufferView (buffer bv) (Some o) (Some (length data)))
    ∧ slice out o (o + length data) = data
    ∧ (images gltf' !! k ≫= mimeType) = Some "image/webp"%string.
Proof.
  intros Hsound Hk Hb Hbv Him Hlast policy data.
  destruct (optimize_vrm_structure_returns cfg gltf blob Hsound)
    as (st & out & Hloop & Hout & Hrun).
  destruct (enumerate_split (images gltf) k img Hk)
    as (pre & post & Hen & Hpost).
  assert (Hrepl : replacements st !! b = Some data).
  { rewrite Hen in Hloop.
    rewrite (encode_loop_last_writer _ _ _ _ _ _ _ _ _ _ _ bv im Hloop Hb Hbv
               Him).
    - unfold data, policy. by rewrite select_policy_class.
    - intros k' img' Hin. destruct (Hpost k' img' Hin) as [Hlt Hk'].
      by apply (Hlast k'). }
  destruct (encode_loop_reencoded cfg (bufferViews gltf) blob
              (get_normal_texture_image_indices gltf)
              (enumerate (images gltf))) with (st := encode_start gltf)
              (st' := st) as (_ & _ & Hre); [|exact Hloop|].
  { rewrite enumerate_fst. apply NoDup_seq. }
  destruct (Hre k img b) as [_ Himg].
  { by apply elem_of_enumerate. }
  { by exists b, bv, im. }
  { done. }
  destruct Hsound as (_ & Hbuf & _ & _).
  destruct (rebuilt_region (set_images gltf (imgs st)) blob (replacements st)
              b bv Hbv Hbuf) as (o & out' & Htab & Hout' & Hraw & _).
  rewrite Hout in Hout'. inversion Hout'; subst out'.
  unfold region_len, region_bytes in *. rewrite Hrepl in *.
  eexists _, out, st, o. split; [exact Hrun|]. split; [done|].
  split; [exact Htab|]. split; [exact Hraw|].
  rewrite rebuild_images. simpl. rewrite Himg; [done|].
  simpl. by eapply lookup_lt_Some.
Qed.

End stored_encoding_theorem.

(** Two images share region 0; the second is named as a thumbnail, and the
    region ends up holding the encoding made under the thumbnail quality 45:
    four bytes after the first. *)
Lemma reencoded_region_holds_class_encoding_witness :
  ∃ gltf' out st o,
    @optimize_vrm_structure toy_externals default_settings shared_region_gltf
      single_blob = inr (gltf', out, st)
    ∧ replacements st !! 0 = Some [x02; x03; x04; x05]
    ∧ bufferViews gltf' !! 0 = Some (mkBufferView 0 (Some o) (Some 4))
    ∧ slice out o (o + 4) = [x02; x03; x04; x05]
    ∧ (images gltf' !! 1 ≫= mimeType) = Some "image/webp"%string.
Proof.
  apply (@reencoded_region_holds_class_encoding toy_externals default_settings
           shared_region_gltf single_blob 1
           (mkImage (Some "thumbnail") (Some "image/png") (Some 0)) 0
           (mkBufferView 0 (Some 0) (Some 8)) single_blob);
    [|reflexivity|reflexivity|reflexivity|reflexivity|].
  - repeat split; try done. intros img b0 Hin Hb0.
    repeat (apply elem_of_cons in Hin as [->|Hin];
            [inversion Hb0; simpl; lia|]).
    by apply elem_of_nil in Hin.
  - intros [|[|k']] img' Hlt Hk'; [lia|lia|]. discriminate Hk'.
Defined.

(** ** Which attempt is reported as the best *)

Lemma update_best_first best log out_size cfg :
  best_first best log →
  best_first (update_best best out_size cfg) (log ++ [(cfg, out_size)]).
Proof.
  unfold best_first, update_best. destruct best as [[bs bc]|].
  - intros (l1 & l2 & -> & Hbefore & Hafter).
    destruct (Z.ltb_spec out_size bs).
    + exists (l1 ++ (bc, bs) :: l2), []. split; [done|]. split.
      * intros c s [Hcs|[Hcs|Hcs]%elem_of_cons]%elem_of_app.
        -- specialize (Hbefore c s Hcs). lia.
        -- inversion Hcs; subst. lia.
        -- specialize (Hafter c s Hcs). lia.
      * by intros c s []%elem_of_nil.
    + exists l1, (l2 ++ [(cfg, out_size)]).
      split; [by rewrite <- app_assoc|]. split; [done|].
      intros c s [Hcs|Hcs]%elem_of_app; [by apply (Hafter c)|].
      apply list_elem_of_singleton in Hcs. inversion Hcs; subst. lia.
  - intros ->. exists [], []. split; [done|].
    split; by intros c s []%elem_of_nil.
Qed.

Section best_attempt.
Context `{Externals}.
Variables (input_path output_path : string) (target_bytes max_attempts : Z).

Lemma search_loop_best_first cands :
  ∀ attempts best log fs,
    best_first best log →
    let r := search_loop input_path output_path target_bytes max_attempts
               cands attempts best log fs in
    ∀ k best_size best_cfg,
      outcome r = inr (CouldNotReach k best_size best_cfg) →
      best_first (Some (best_size, best_cfg)) (attempt_log r).
Proof.
  induction cands as [|cfg rest IH]; intros attempts best log fs Hbest; simpl.
  { intros k bs bc. unfold search_finish. destruct best as [[bs' bc']|]; [|done].
    by intros [= _ <- <-]. }
  destruct (max_attempts <? attempts + 1)%Z; simpl.
  { intros k bs bc. unfold search_finish. destruct best as [[bs' bc']|]; [|done].
    by intros [= _ <- <-]. }
  destruct (optimize_vrm_file input_path output_path cfg fs) as [e|fs'];
    simpl; [done|].
  destruct (getsize fs' output_path) as [e|out_size]; simpl; [done|].
  destruct (out_size <=? target_bytes)%Z; simpl; [done|].
  apply IH. by apply update_best_first.
Qed.

(** X16. When the search reports a miss, the settings it names are those of
    the earliest attempt that measured the smallest size: every attempt
    before it measured strictly more, and no attempt after it measured
    less. A later attempt of equal size does not replace it. *)
Theorem search_reports_earliest_smallest
    (start : settings) (fs : gmap string container)
    (k best_size : Z) (best_cfg : settings) :
  let r := optimize_vrm_to_target input_path output_path target_bytes start
             max_attempts fs in
  outcome r = inr (CouldNotReach k best_size best_cfg) →
  ∃ earlier later,
    attempt_log r = earlier ++ (best_cfg, best_size) :: later
    ∧ (∀ c s, (c, s) ∈ earlier → (best_size < s)%Z)
    ∧ (∀ c s, (c, s) ∈ later → (best_size ≤ s)%Z).
Proof.
  intros r Ho.
  apply (search_loop_best_first (_candidate_settings_for_target start) 0%Z
           None [] fs eq_refl k best_size best_cfg Ho).
Qed.

End best_attempt.

(** With a codec whose output size does not depend on the quality, all three
    attempts measure 4 bytes and the first one is named. *)
Lemma search_reports_earliest_smallest_witness :
  ∃ later,
    attempt_log (@optimize_vrm_to_target flat_externals "avatar.vrm" "out.vrm"
                   0 default_settings 3 single_fs)
    = (candidate default_settings 512 60, 4%Z) :: later
    ∧ length later = 2
    ∧ (∀ c s, (c, s) ∈ later → (4 ≤ s)%Z).
Proof.
  destruct (@search_reports_earliest_smallest flat_externals "avatar.vrm"
              "out.vrm" 0 3 default_settings single_fs 4 4
              (candidate default_settings 512 60))
    as (earlier & later & Hlog & Hbefore & Hafter); [vm_compute; reflexivity|].
  destruct earlier as [|[c s] earlier].
  - exists later. split; [exact Hlog|]. split; [|exact Hafter].
    assert (E : length (attempt_log (@optimize_vrm_to_target flat_externals
                  "avatar.vrm" "out.vrm" 0 default_settings 3 single_fs)) = 3)
      by (vm_compute; reflexivity).
    rewrite Hlog in E. simpl in E. lia.
  - exfalso. assert (Hs : s = 4%Z).
    { assert (E : map snd (attempt_log (@optimize_vrm_to_target flat_externals
                    "avatar.vrm" "out.vrm" 0 default_settings 3 single_fs))
                  = [4; 4; 4]%Z) by (vm_compute; reflexivity).
      rewrite Hlog in E. simpl in E. by inversion E. }
    assert (Hin : (c, s) ∈ (c, s) :: earlier) by by left.
    specialize (Hbefore c s Hin). lia.
Defined.
